(** * Lisk SDK: BFT finality manager and P2P coordinator

    A shallow embedding of
    - [framework/src/modules/chain/bft/finality_manager.js]
      (class [FinalityManager]) and
    - the P2P coordinator (class [P2P]: [start], [stop], the inbound
      connection handler of [_startPeerServer], [_handleGetPeersRequest]),
    together with the properties of the specification that concern them.

    Conventions.
    - Heights are JavaScript integers, embedded as [Z].
    - [preVotes] and [preCommits] are JavaScript objects keyed by height;
      they are embedded as [gmap Z Z].  [Object.keys] lists integer keys
      in ascending numeric order, which [keys] reproduces by sorting the
      domain (heights are array indices, so no key is ordered by insertion).
    - [state] is an object keyed by delegate public key: [gmap string _].
    - Methods that throw are computations in the monad [M], which threads
      the manager and returns either an error or a value; a thrown error
      keeps whatever state the method had reached when it threw. *)

From Stdlib Require Import ZArith Lia.
From stdpp Require Import gmap strings pretty list fin_maps sorting.
From Equations Require Import Equations.

Local Open Scope Z_scope.

(** ** Block headers and the header list *)

Record BlockHeader := mkHeader {
  height : Z;
  maxHeightPreviouslyForged : Z;
  maxHeightPrevoted : Z;
  delegateMinHeightActive : Z;
  delegatePublicKey : string;
}.

#[global] Instance BlockHeader_eq_dec : EqDecision BlockHeader.
Proof. solve_decision. Defined.

Module HeadersList.

(** Modelled from the spec: the class [HeadersList] of
    [bft/headers_list.js] is not among the sources.  The specification
    describes it as a bounded sequence of headers ordered by height, of
    size [activeDelegates * 5], that supports append (highest only),
    remove-above(height), get-by-height, first, last and top(n), with
    FIFO eviction on the low-height end when full. *)
Record t := mk {
  items : list BlockHeader;
  size : nat;
}.

(** Modelled from the spec: [new HeadersList({ size })]. *)
Definition empty (sz : nat) : t := mk [] sz.

(** Modelled from the spec: [length], the number of stored headers. *)
Definition length (l : t) : Z := Z.of_nat (List.length (items l)).

(** Modelled from the spec: [first], the lowest stored header. *)
Definition first (l : t) : option BlockHeader := head (items l).

(** Modelled from the spec: [last], the highest stored header. *)
Definition last (l : t) : option BlockHeader := list.last (items l).

(** Modelled from the spec: [add] appends at the high end; when the
    list grows beyond [size] the oldest (lowest) header is evicted. *)
Definition add (h : BlockHeader) (l : t) : t :=
  let appended := items l ++ [h] in
  if decide (size l < List.length appended)%nat
  then mk (drop 1 appended) (size l)
  else mk appended (size l).

(** Modelled from the spec: the contract of [add], "append (highest
    only)": the new header is higher than every stored one, that is,
    higher than the last. *)
Definition appendable (h : BlockHeader) (l : t) : Prop :=
  match last l with
  | Some top => height top < height h
  | None => True
  end.

(** Modelled from the spec: [remove({ aboveHeight })] removes the
    headers strictly above [aboveHeight]. *)
Definition remove (aboveHeight : Z) (l : t) : t :=
  mk (filter (λ h, height h ≤ aboveHeight) (items l)) (size l).

(** Modelled from the spec: [get(height)], random access by height. *)
Definition get (needle : Z) (l : t) : option BlockHeader :=
  find (λ h, bool_decide (height h = needle)) (items l).

(** Modelled from the spec: [top(n)], the [n] highest headers in
    ascending order. *)
Definition top (n : Z) (l : t) : list BlockHeader :=
  drop (List.length (items l) - Z.to_nat n) (items l).

End HeadersList.

(** ** Vote tallies: objects keyed by height *)

Module Tally.

(** [Object.keys(o)]: the heights present, ascending. *)
Definition keys (o : gmap Z Z) : list Z :=
  merge_sort Z.le (elements (dom o)).

(** [o[j] >= threshold]; an absent entry is [undefined] and the
    comparison is false. *)
Definition reaches (o : gmap Z Z) (threshold : Z) (j : Z) : bool :=
  match o !! j with
  | Some c => bool_decide (threshold ≤ c)
  | None => false
  end.

(** [o[j] = (o[j] || 0) + 1] *)
Definition increment (j : Z) (o : gmap Z Z) : gmap Z Z :=
  <[j := default 0 (o !! j) + 1]> o.

(** [Object.keys(o).reverse().find(key => o[key] >= threshold)] *)
Definition highest (o : gmap Z Z) (threshold : Z) : option Z :=
  find (reaches o threshold) (reverse (keys o)).

(** All keys but the last [n] are deleted. *)
Definition trim (n : nat) (o : gmap Z Z) : gmap Z Z :=
  foldr delete o (take (List.length (keys o) - n) (keys o)).

(** [keys.slice(0, e)] for any integer [e]: a negative [e] counts from
    the end of the array. *)
Definition slice0 {A} (e : Z) (l : list A) : list A :=
  take (if decide (e < 0)
        then Z.to_nat (Z.of_nat (List.length l) + e)
        else Z.to_nat e) l.

(** [Object.keys(o).slice(0, -1 * n).forEach(key => delete o[key])] *)
Definition cleanup (n : Z) (o : gmap Z Z) : gmap Z Z :=
  foldr delete o (slice0 (-1 * n) (keys o)).

End Tally.

(** ** The finality manager *)

Record DelegateState := mkDelegateState {
  maxPreVoteHeight : Z;
  maxPreCommitHeight : Z;
}.

Inductive BFTError :=
| InvalidHeaderSchema
| BFTInvalidAttributeError
| BFTForkChoiceRuleError
| BFTChainDisjointError
| BFTLowerChainBranchError.

(** Modelled from the spec: the constant [BFT_ROUND_THRESHOLD] of
    [bft/constant.js] is not among the sources; the specification gives
    [processingThreshold = 3D - 1]. *)
Definition BFT_ROUND_THRESHOLD : Z := 3.

(** [Math.ceil(a / b)] for a positive divisor. *)
Definition ceil_div (a b : Z) : Z := - ((- a) / b).

Record FinalityManager := mkFinalityManager {
  activeDelegates : Z;
  headers : HeadersList.t;
  finalizedHeight : Z;
  chainMaxHeightPrevoted : Z;
  state : gmap string DelegateState;
  preVotes : gmap Z Z;
  preCommits : gmap Z Z;
  (** payloads of [EVENT_BFT_FINALIZED_HEIGHT_CHANGED], oldest first *)
  emitted : list Z;
}.

Definition preVoteThreshold (fm : FinalityManager) : Z :=
  ceil_div (activeDelegates fm * 2) 3.
Definition preCommitThreshold (fm : FinalityManager) : Z :=
  ceil_div (activeDelegates fm * 2) 3.
Definition processingThreshold (fm : FinalityManager) : Z :=
  activeDelegates fm * BFT_ROUND_THRESHOLD - 1.
Definition maxHeaders (fm : FinalityManager) : Z :=
  activeDelegates fm * 5.

(** The constructor; its assertions fail for a non-positive
    [activeDelegates]. *)
Definition new (finalizedHeight activeDelegates : Z) : option FinalityManager :=
  if decide (0 < activeDelegates) then
    Some {| activeDelegates := activeDelegates;
            headers := HeadersList.empty (Z.to_nat (activeDelegates * 5));
            finalizedHeight := finalizedHeight;
            chainMaxHeightPrevoted := 0;
            state := ∅;
            preVotes := ∅;
            preCommits := ∅;
            emitted := [] |}
  else None.

Definition minHeight (fm : FinalityManager) : Z :=
  match HeadersList.first (headers fm) with
  | Some h => height h
  | None => 0
  end.

Definition maxHeight (fm : FinalityManager) : Z :=
  match HeadersList.last (headers fm) with
  | Some h => height h
  | None => 0
  end.

Definition set_headers (hl : HeadersList.t) (fm : FinalityManager) :=
  {| activeDelegates := activeDelegates fm;
     headers := hl;
     finalizedHeight := finalizedHeight fm;
     chainMaxHeightPrevoted := chainMaxHeightPrevoted fm;
     state := state fm;
     preVotes := preVotes fm;
     preCommits := preCommits fm;
     emitted := emitted fm |}.

Definition set_votes (st : gmap string DelegateState) (pv pc : gmap Z Z)
    (fm : FinalityManager) :=
  {| activeDelegates := activeDelegates fm;
     headers := headers fm;
     finalizedHeight := finalizedHeight fm;
     chainMaxHeightPrevoted := chainMaxHeightPrevoted fm;
     state := st;
     preVotes := pv;
     preCommits := pc;
     emitted := emitted fm |}.

Definition set_heights (prevoted finalized : Z) (events : list Z)
    (fm : FinalityManager) :=
  {| activeDelegates := activeDelegates fm;
     headers := headers fm;
     finalizedHeight := finalized;
     chainMaxHeightPrevoted := prevoted;
     state := state fm;
     preVotes := preVotes fm;
     preCommits := preCommits fm;
     emitted := events |}.

(** *** Methods that throw *)

Definition M (A : Type) : Type :=
  FinalityManager → FinalityManager * (BFTError + A).

#[global] Instance M_ret : MRet M := λ A a fm, (fm, inr a).
#[global] Instance M_bind : MBind M := λ A B f c fm,
  match c fm with
  | (fm', inr a) => f a fm'
  | (fm', inl e) => (fm', inl e)
  end.
#[global] Instance M_throw : MThrow BFTError M := λ A e fm, (fm, inl e).

Definition this : M FinalityManager := λ fm, (fm, inr fm).
Definition perform {A} (f : FinalityManager → FinalityManager * A) : M A :=
  λ fm, let '(fm', a) := f fm in (fm', inr a).

(** Modelled from the spec: [validateBlockHeader] of [bft/utils.js] is not
    among the sources.  The specification describes [height] as a positive
    integer and [maxHeightPreviouslyForged] as a height that is at least 0;
    a header outside that schema is rejected with [InvalidHeaderSchema]. *)
Definition validateBlockHeader (h : BlockHeader) : M unit :=
  if decide (1 ≤ height h ∧ 0 ≤ maxHeightPreviouslyForged h)
  then mret ()
  else mthrow InvalidHeaderSchema.

(** [this.headers.top(processingThreshold).reverse().find(...)] *)
Definition _findLastBlockForgedByDelegate (fm : FinalityManager)
    (key : string) : option BlockHeader :=
  find (λ h, bool_decide (delegatePublicKey h = key))
       (reverse (HeadersList.top (processingThreshold fm) (headers fm))).

Definition verifyBlockHeaders (blockHeader : BlockHeader) : M bool :=
  fm ← this;
  if decide (processingThreshold fm ≤ HeadersList.length (headers fm)
             ∧ maxHeightPrevoted blockHeader ≠ chainMaxHeightPrevoted fm)
  then mthrow BFTInvalidAttributeError
  else
    match _findLastBlockForgedByDelegate fm (delegatePublicKey blockHeader) with
    | None => mret true
    | Some delegateLastBlock =>
        let earlier0 := delegateLastBlock in
        let later0 := blockHeader in
        let higherMaxHeightPreviouslyForged :=
          bool_decide (maxHeightPreviouslyForged later0
                       < maxHeightPreviouslyForged earlier0) in
        let sameMaxHeightPreviouslyForged :=
          bool_decide (maxHeightPreviouslyForged earlier0
                       = maxHeightPreviouslyForged later0) in
        let higherMaxHeightPrevoted :=
          bool_decide (maxHeightPrevoted later0 < maxHeightPrevoted earlier0) in
        let sameMaxHeightPrevoted :=
          bool_decide (maxHeightPrevoted earlier0 = maxHeightPrevoted later0) in
        let higherHeight := bool_decide (height later0 < height earlier0) in
        let '(earlierBlock, laterBlock) :=
          if higherMaxHeightPreviouslyForged
             || (sameMaxHeightPreviouslyForged && higherMaxHeightPrevoted)
             || (sameMaxHeightPreviouslyForged && sameMaxHeightPrevoted
                 && higherHeight)
          then (later0, earlier0) else (earlier0, later0) in
        if decide (maxHeightPrevoted earlierBlock = maxHeightPrevoted laterBlock
                   ∧ height laterBlock ≤ height earlierBlock)
        then mthrow BFTForkChoiceRuleError
        else if decide (maxHeightPreviouslyForged laterBlock < height earlierBlock)
        then mthrow BFTChainDisjointError
        else if decide (maxHeightPrevoted laterBlock < maxHeightPrevoted earlierBlock)
        then mthrow BFTLowerChainBranchError
        else mret true
    end.

(** *** Vote accounting *)

(** The [while] loop of [_getMinValidHeightToPreCommit].  [needle] and
    [current] are the loop variables [needleHeight] and
    [currentBlockHeader]; [key] is [header.delegatePublicKey].  The needle
    strictly decreases at every iteration, which bounds the loop. *)
Equations? minValidLoop (hl : HeadersList.t) (key : string) (searchTill : Z)
    (needle : Z) (current : BlockHeader) : Z
    by wf (Z.to_nat (needle - searchTill + 1)) lt :=
  minValidLoop hl key searchTill needle current
    with decide (searchTill ≤ needle) => {
    | right _ => Z.max (needle + 1) searchTill
    | left _ with decide (needle = maxHeightPreviouslyForged current) => {
      | right _ => minValidLoop hl key searchTill (needle - 1) current
      | left _ with HeadersList.get needle hl => {
        | None => 0
        | Some previous
            with decide (delegatePublicKey previous ≠ key
                         ∨ needle ≤ maxHeightPreviouslyForged previous) => {
          | left _ => needle + 1
          | right _ =>
              minValidLoop hl key searchTill
                (maxHeightPreviouslyForged previous) previous } } } }.
Proof. all: lia. Qed.

Definition _getMinValidHeightToPreCommit (fm : FinalityManager)
    (header : BlockHeader) : Z :=
  let searchTillHeight :=
    Z.max (minHeight fm) (height header - processingThreshold fm) in
  let needleHeight :=
    Z.max (maxHeightPreviouslyForged header)
          (height header - processingThreshold fm) in
  minValidLoop (headers fm) (delegatePublicKey header) searchTillHeight
    needleHeight header.

(** [for (let j = lo; j <= hi; j++)] *)
Definition range (lo hi : Z) : list Z := seqZ lo (hi - lo + 1).

(** One iteration of the pre-commit loop: the pre-vote tally [pv] is only
    read. *)
Definition preCommitStep (pv : gmap Z Z) (threshold : Z)
    (acc : gmap Z Z * DelegateState) (j : Z) : gmap Z Z * DelegateState :=
  if Tally.reaches pv threshold j
  then (Tally.increment j acc.1,
        {| maxPreVoteHeight := maxPreVoteHeight acc.2;
           maxPreCommitHeight := j |})
  else acc.

Definition initialDelegateState : DelegateState :=
  {| maxPreVoteHeight := 0; maxPreCommitHeight := 0 |}.

Definition minPreCommitHeight (fm : FinalityManager) (header : BlockHeader)
    (delegateState : DelegateState) : Z :=
  Z.max (delegateMinHeightActive header)
    (Z.max (_getMinValidHeightToPreCommit fm header)
           (maxPreCommitHeight delegateState + 1)).

Definition minPreVoteHeight (fm : FinalityManager) (header : BlockHeader)
    (delegateState : DelegateState) : Z :=
  Z.max (delegateMinHeightActive header)
    (Z.max (maxHeightPreviouslyForged header + 1)
       (Z.max (maxPreVoteHeight delegateState + 1)
              (height header - processingThreshold fm))).

Definition updatePreVotesPreCommits (header : BlockHeader)
    (fm : FinalityManager) : FinalityManager * bool :=
  if decide (height header ≤ maxHeightPreviouslyForged header)
  then (fm, false)
  else
    let delegateState :=
      default initialDelegateState (state fm !! delegatePublicKey header) in
    (* the local constants maxPreCommitHeight and maxPreVoteHeight of the
       source are [height header - 1] and [height header] *)
    let '(preCommits', delegateState') :=
      foldl (preCommitStep (preVotes fm) (preVoteThreshold fm))
            (preCommits fm, delegateState)
            (range (minPreCommitHeight fm header delegateState)
                   (height header - 1)) in
    let preVotes' :=
      foldl (λ pv j, Tally.increment j pv) (preVotes fm)
            (range (minPreVoteHeight fm header delegateState)
                   (height header)) in
    (set_votes
       (<[delegatePublicKey header :=
            {| maxPreVoteHeight := height header;
               maxPreCommitHeight := maxPreCommitHeight delegateState' |}]>
          (state fm))
       preVotes' preCommits' fm,
     true).

(** *** Deriving the pre-voted and the finalized height *)

Definition updatePreVotedAndFinalizedHeight (fm : FinalityManager)
    : FinalityManager * bool :=
  if decide (HeadersList.length (headers fm) = 0) then (fm, false)
  else
    let prevoted :=
      match Tally.highest (preVotes fm) (preVoteThreshold fm) with
      | Some j => j
      | None => chainMaxHeightPrevoted fm
      end in
    let previouslyFinalizedHeight := finalizedHeight fm in
    let finalized :=
      match Tally.highest (preCommits fm) (preCommitThreshold fm) with
      | Some j => j
      | None => finalizedHeight fm
      end in
    let events :=
      if decide (previouslyFinalizedHeight = finalized) then emitted fm
      else emitted fm ++ [finalized] in
    (set_heights prevoted finalized events fm, true).

Definition _cleanup (fm : FinalityManager) : FinalityManager :=
  set_votes (state fm)
    (Tally.cleanup (maxHeaders fm) (preVotes fm))
    (Tally.cleanup (maxHeaders fm) (preCommits fm))
    fm.

(** *** The public operations *)

Definition addBlockHeader (blockHeader : BlockHeader) : M unit :=
  validateBlockHeader blockHeader;;
  verifyBlockHeaders blockHeader;;
  perform (λ fm, (set_headers (HeadersList.add blockHeader (headers fm)) fm, ()));;
  perform (updatePreVotesPreCommits blockHeader);;
  perform updatePreVotedAndFinalizedHeight;;
  perform (λ fm, (_cleanup fm, ())).

(** The first four assignments of [recompute]. *)
Definition resetVotes (fm : FinalityManager) : FinalityManager :=
  {| activeDelegates := activeDelegates fm;
     headers := headers fm;
     finalizedHeight := finalizedHeight fm;
     chainMaxHeightPrevoted := 0;
     state := ∅;
     preVotes := ∅;
     preCommits := ∅;
     emitted := emitted fm |}.

(** [this.headers.items.forEach(header => this.updatePreVotesPreCommits(header))] *)
Definition replay (hs : list BlockHeader) (fm : FinalityManager)
    : FinalityManager :=
  foldl (λ acc header, (updatePreVotesPreCommits header acc).1) fm hs.

Definition recompute (fm : FinalityManager) : FinalityManager :=
  let fm1 := resetVotes fm in
  let fm2 := replay (HeadersList.items (headers fm1)) fm1 in
  let fm3 := (updatePreVotedAndFinalizedHeight fm2).1 in
  _cleanup fm3.

Definition removeBlockHeaders (aboveHeight : Z) (fm : FinalityManager)
    : FinalityManager :=
  recompute (set_headers (HeadersList.remove aboveHeight (headers fm)) fm).

(** The manager after a call of [addBlockHeader], whether it returned or
    threw. *)
Definition afterAdd (fm : FinalityManager) (h : BlockHeader) : FinalityManager :=
  (addBlockHeader h fm).1.

(** The manager after a sequence of [addBlockHeader] calls, the caller
    catching whatever a call throws. *)
Definition addAll (fm : FinalityManager) (hs : list BlockHeader)
    : FinalityManager :=
  foldl afterAdd fm hs.

(** *** The specification's [minValidCommitHeight]

    The loop of the specification, written as the relation between a loop
    configuration [(needle, current)] and the value that the loop returns
    from it.  [h] is the header whose delegate pre-commits. *)
Inductive specLoop (hl : HeadersList.t) (h : BlockHeader) (searchTill : Z)
    : Z → BlockHeader → Z → Prop :=
| specLoop_end needle current :
    needle < searchTill →
    specLoop hl h searchTill needle current (Z.max (needle + 1) searchTill)
| specLoop_absent needle current :
    searchTill ≤ needle →
    needle = maxHeightPreviouslyForged current →
    HeadersList.get needle hl = None →
    specLoop hl h searchTill needle current 0
| specLoop_other needle current prev :
    searchTill ≤ needle →
    needle = maxHeightPreviouslyForged current →
    HeadersList.get needle hl = Some prev →
    delegatePublicKey prev ≠ delegatePublicKey h
    ∨ needle ≤ maxHeightPreviouslyForged prev →
    specLoop hl h searchTill needle current (needle + 1)
| specLoop_follow needle current prev r :
    searchTill ≤ needle →
    needle = maxHeightPreviouslyForged current →
    HeadersList.get needle hl = Some prev →
    delegatePublicKey prev = delegatePublicKey h →
    maxHeightPreviouslyForged prev < needle →
    specLoop hl h searchTill (maxHeightPreviouslyForged prev) prev r →
    specLoop hl h searchTill needle current r
| specLoop_down needle current r :
    searchTill ≤ needle →
    needle ≠ maxHeightPreviouslyForged current →
    specLoop hl h searchTill (needle - 1) current r →
    specLoop hl h searchTill needle current r.

(** [minValidCommitHeight(h)] of the specification returns [r]. *)
Definition minValidCommitHeight (fm : FinalityManager) (h : BlockHeader)
    (r : Z) : Prop :=
  specLoop (headers fm) h
    (Z.max (minHeight fm) (height h - processingThreshold fm))
    (Z.max (maxHeightPreviouslyForged h) (height h - processingThreshold fm))
    h r.

(** The four mutating statements of [addBlockHeader], which run once the
    header has passed validation and verification. *)
Definition acceptHeader (h : BlockHeader) (fm : FinalityManager)
    : FinalityManager :=
  let fm1 := set_headers (HeadersList.add h (headers fm)) fm in
  let fm2 := (updatePreVotesPreCommits h fm1).1 in
  let fm3 := (updatePreVotedAndFinalizedHeight fm2).1 in
  _cleanup fm3.

(** *** Invariants of the tallies *)

(** Every recorded tally counts at least one vote. *)
Definition countsPositive (o : gmap Z Z) : Prop :=
  ∀ j c, o !! j = Some c → 1 ≤ c.

(** No delegate has pre-committed below height 0. *)
Definition delegatesNonneg (st : gmap string DelegateState) : Prop :=
  ∀ k s, st !! k = Some s → 0 ≤ maxPreCommitHeight s.

(** The relation between the pre-commit tally [pc] (trimmed to [n] keys)
    and the finalized height [F] of a manager that was constructed with
    finalized height [F0]: either [F] is witnessed by a height that
    reaches the threshold [t], or the witness has been trimmed away and
    the [n] remaining heights all lie above [F], or nothing has been
    finalized since construction and every recorded height lies above
    [F0]. *)
Definition finalityInv (n : nat) (t F0 : Z) (pc : gmap Z Z) (F : Z) : Prop :=
  (∃ j c, pc !! j = Some c ∧ t ≤ c ∧ F ≤ j)
  ∨ (base.size pc = n ∧ ∀ j, is_Some (pc !! j) → F < j)
  ∨ (F = F0 ∧ ∀ j, is_Some (pc !! j) → F0 < j).

(** The finalized height that [updatePreVotedAndFinalizedHeight] derives
    from a pre-commit tally. *)
Definition nextFinalized (t : Z) (pc : gmap Z Z) (F : Z) : Z :=
  match Tally.highest pc t with
  | Some j => j
  | None => F
  end.


(** *** Reachable managers *)

(** The header list holds valid headers in strictly ascending height. *)
Definition headersOrdered (l : HeadersList.t) : Prop :=
  StronglySorted (λ a b, height a < height b) (HeadersList.items l)
  ∧ Forall (λ x, 1 ≤ height x) (HeadersList.items l).

(** The managers that a caller can obtain: one constructs a manager, then
    calls [addBlockHeader] (catching what it throws) and
    [removeBlockHeaders] in any order.  Headers are added within the
    contract of the header list: each is higher than the stored ones. *)
Inductive reachable : FinalityManager → Prop :=
| reachable_new F0 D fm :
    new F0 D = Some fm → reachable fm
| reachable_add fm h :
    reachable fm →
    HeadersList.appendable h (headers fm) →
    reachable (afterAdd fm h)
| reachable_remove fm aboveHeight :
    reachable fm →
    reachable (removeBlockHeaders aboveHeight fm).

(** The invariant behind [chainMaxHeightPrevoted ≤ maxHeight]. *)
Definition prevotedInv (fm : FinalityManager) : Prop :=
  0 < activeDelegates fm
  ∧ (0 < HeadersList.size (headers fm))%nat
  ∧ headersOrdered (headers fm)
  ∧ (∀ j, is_Some (preVotes fm !! j) → j ≤ maxHeight fm)
  ∧ chainMaxHeightPrevoted fm ≤ maxHeight fm.

(** ** The P2P coordinator *)

Module P2P.

(** Values of the attributes of a peer's shared state. *)
Inductive JSValue :=
| JSNumber (z : Z)
| JSString (s : string)
| JSBoolean (b : bool).

#[global] Instance JSValue_eq_dec : EqDecision JSValue.
Proof. solve_decision. Defined.

Inductive ConnectionKind := INBOUND | OUTBOUND | NONE.

Record P2PInternalState := mkInternalState {
  advertiseAddress : bool;
  connectionKind : ConnectionKind;
}.

Record P2PPeerInfo := mkPeerInfo {
  peerId : string;
  ipAddress : string;
  wsPort : Z;
  sharedState : gmap string JSValue;
  internalState : option P2PInternalState;
}.

(** [ProtocolPeerInfo]: the object [{ipAddress, wsPort, ...sharedState}]. *)
Abbreviation ProtocolPeerInfo := (gmap string JSValue).

Record P2PConfig := mkConfig {
  minimumPeerDiscoveryThreshold : option Z;
  peerDiscoveryResponseLength : option Z;
  wsMaxPayload : option Z;
  maxPeerInfoSize : option Z;
}.

(** [value ? value : fallback] for an optional number: [undefined] and
    [0] are falsy. *)
Definition orDefault (value : option Z) (fallback : Z) : Z :=
  match value with
  | Some v => if decide (v = 0) then fallback else v
  | None => fallback
  end.

(** Modelled from the spec: [constants.ts] is not among the sources;
    the specification gives the default of wsMaxPayload as 1 MiB. *)
Definition DEFAULT_WS_MAX_PAYLOAD : Z := 1048576.

(** Modelled from the spec: [constants.ts] is not among the sources;
    the specification gives the default of maxPeerInfoSize as 20 KiB. *)
Definition DEFAULT_MAX_PEER_INFO_SIZE : Z := 20480.

(** Modelled from the spec: [constants.ts] is not among the sources;
    the specification gives the default of
    minimumPeerDiscoveryThreshold as 100. *)
Definition DEFAULT_MIN_PEER_DISCOVERY_THRESHOLD : Z := 100.

(** Modelled from the spec: [constants.ts] is not among the sources;
    the specification gives the default of
    maxPeerDiscoveryResponseLength as 1000. *)
Definition DEFAULT_MAX_PEER_DISCOVERY_RESPONSE_LENGTH : Z := 1000.

(** [peer => !(peer.internalState && !peer.internalState.advertiseAddress)] *)
Definition advertised (peer : P2PPeerInfo) : bool :=
  negb (match internalState peer with
        | Some st => negb (advertiseAddress st)
        | None => false
        end).

(** [{ipAddress: peer.ipAddress, wsPort: peer.wsPort, ...peer.sharedState}]:
    an attribute of the shared state overrides the two leading ones. *)
Definition sanitize (peer : P2PPeerInfo) : ProtocolPeerInfo :=
  sharedState peer
  ∪ <["ipAddress" := JSString (ipAddress peer)]>
      (<["wsPort" := JSNumber (wsPort peer)]> ∅).

Record PeersResponse := mkResponse {
  success : bool;
  peers : list ProtocolPeerInfo;
}.

Section get_peers.
(** [getByteSize] of [utils] is not among the sources: the handler is
    taken with the size function as a parameter. *)
Variable getByteSize : list ProtocolPeerInfo → Z.

(** [_handleGetPeersRequest]: the argument of [request.end], given the
    peers [selectedPeers] that
    [this._peerBook.getRandomizedPeerList(minimumPeerDiscoveryThreshold,
    peerDiscoveryResponseLength)] returned. *)
Definition _handleGetPeersRequest (config : P2PConfig)
    (selectedPeers : list P2PPeerInfo) : PeersResponse :=
  let wsMaxPayload :=
    orDefault (wsMaxPayload config) DEFAULT_WS_MAX_PAYLOAD in
  let maxPeerInforSize :=
    orDefault (maxPeerInfoSize config) DEFAULT_MAX_PEER_INFO_SIZE in
  let safeMaxPeerInfoLength :=
    DEFAULT_WS_MAX_PAYLOAD / maxPeerInforSize - 1 in
  let sanitizedPeerInfoList :=
    sanitize <$> List.filter advertised selectedPeers in
  {| success := true;
     peers :=
       if decide (getByteSize sanitizedPeerInfoList < wsMaxPayload)
       then sanitizedPeerInfoList
       else Tally.slice0 safeMaxPeerInfoLength sanitizedPeerInfoList |}.

(** The list that the specification prescribes when the sanitized list
    is too large: its first
    [floor(wsMaxPayload / maxPeerInfoSize) - 1] entries, for the
    configured values. *)
Definition specTruncated (config : P2PConfig)
    (sanitizedPeerInfoList : list ProtocolPeerInfo)
    : list ProtocolPeerInfo :=
  take (Z.to_nat
          (orDefault (wsMaxPayload config) DEFAULT_WS_MAX_PAYLOAD
           / orDefault (maxPeerInfoSize config) DEFAULT_MAX_PEER_INFO_SIZE
           - 1))
       sanitizedPeerInfoList.
End get_peers.

(** *** Pool, book and sockets *)

(** Modelled from the spec: the class [PeerPool] is not among the
    sources.  The specification describes it as the two sets of live
    connections, inbound and outbound, held by peer id. *)
Record PeerPool := mkPool {
  inbound : gmap string P2PPeerInfo;
  outbound : gmap string P2PPeerInfo;
}.

(** Modelled from the spec: [PeerPool.getPeer(peerId)], the live peer
    held under that id, if any. *)
Definition pool_getPeer (id : string) (pool : PeerPool) : option P2PPeerInfo :=
  match inbound pool !! id with
  | Some p => Some p
  | None => outbound pool !! id
  end.


(** Modelled from the spec: [PeerPool.removeAllPeers] closes every
    connection. *)
Definition removeAllPeers (pool : PeerPool) : PeerPool :=
  {| inbound := ∅; outbound := ∅ |}.

(** Modelled from the spec: the class [PeerBook] is not among the
    sources.  The specification describes it as two tables, new and
    tried, a peer id being in at most one of them. *)
Record PeerBook := mkBook {
  newPeers : gmap string P2PPeerInfo;
  triedPeers : gmap string P2PPeerInfo;
}.

(** Modelled from the spec: [PeerBook.getPeer], the entry of whichever
    table holds the peer. *)
Definition book_getPeer (id : string) (book : PeerBook) : option P2PPeerInfo :=
  match triedPeers book !! id with
  | Some p => Some p
  | None => newPeers book !! id
  end.

(** Modelled from the spec: [PeerBook.addPeer] places the peer in the
    new table and fails with [ExistingPeer], which carries the stored
    entry, when the peer is present in either table.  [inl existing]
    stands for the thrown [ExistingPeerError]. *)
Definition addPeer (peer : P2PPeerInfo) (book : PeerBook)
    : P2PPeerInfo + PeerBook :=
  match book_getPeer (peerId peer) book with
  | Some existing => inl existing
  | None => inr {| newPeers := <[peerId peer := peer]> (newPeers book);
                   triedPeers := triedPeers book |}
  end.


(** The values of [DUPLICATE_CONNECTION] and
    [DUPLICATE_CONNECTION_REASON] are in [constants.ts], which is not
    among the sources; they are kept symbolic. *)
Inductive StatusCode := DUPLICATE_CONNECTION.
Inductive CloseReason := DUPLICATE_CONNECTION_REASON.

Inductive Event :=
| EVENT_FAILED_TO_ADD_INBOUND_PEER
    (closeReason : CloseReason) (statusCode : StatusCode) (remote : string)
| EVENT_NEW_INBOUND_PEER (peer : P2PPeerInfo).

Inductive P2PError :=
| NodeAlreadyActive   (* 'Node cannot start because it is already active.' *)
| NodeNotActive       (* 'Node cannot be stopped because it is not active.' *)
| PopulatorAlreadyRunning. (* 'Populator is already running' *)

Record t := mkP2P {
  _isActive : bool;
  _hasConnected : bool;
  _peerBook : PeerBook;
  _peerPool : PeerPool;
  _bannedPeers : gset string;
  (** [_sanitizedPeerLists.whitelisted], by peer id *)
  whitelisted : gset string;
  (** whether [_populatorIntervalId] is set, and whether its timer runs *)
  _populatorIntervalId : bool;
  populatorRunning : bool;
  (** the number of listeners registered for 'connection' and whether the
      master server is ready or closed *)
  connectionListeners : nat;
  serverReady : bool;
  (** calls of [discoverSeedPeers] and [triggerNewConnections] on the pool *)
  discoveries : nat;
  populations : nat;
  (** [socket.disconnect(statusCode, closeReason)] calls, oldest first *)
  disconnected : list (string * StatusCode * CloseReason);
  (** events emitted by the node, oldest first *)
  emittedEvents : list Event;
}.


Definition with_connection (pool : PeerPool) (book : PeerBook)
    (closes : list (string * StatusCode * CloseReason))
    (events : list Event) (node : t) : t :=
  {| _isActive := _isActive node;
     _hasConnected := _hasConnected node;
     _peerBook := book;
     _peerPool := pool;
     _bannedPeers := _bannedPeers node;
     whitelisted := whitelisted node;
     _populatorIntervalId := _populatorIntervalId node;
     populatorRunning := populatorRunning node;
     connectionListeners := connectionListeners node;
     serverReady := serverReady node;
     discoveries := discoveries node;
     populations := populations node;
     disconnected := closes;
     emittedEvents := events |}.




Definition set_bannedPeers (banned : gset string) (node : t) : t :=
  {| _isActive := _isActive node;
     _hasConnected := _hasConnected node;
     _peerBook := _peerBook node;
     _peerPool := _peerPool node;
     _bannedPeers := banned;
     whitelisted := whitelisted node;
     _populatorIntervalId := _populatorIntervalId node;
     populatorRunning := populatorRunning node;
     connectionListeners := connectionListeners node;
     serverReady := serverReady node;
     discoveries := discoveries node;
     populations := populations node;
     disconnected := disconnected node;
     emittedEvents := emittedEvents node |}.

(** A node that has just been constructed, with the given ban list. *)
Definition fresh (banned : gset string) : t :=
  {| _isActive := false;
     _hasConnected := false;
     _peerBook := {| newPeers := ∅; triedPeers := ∅ |};
     _peerPool := {| inbound := ∅; outbound := ∅ |};
     _bannedPeers := banned;
     whitelisted := ∅;
     _populatorIntervalId := false;
     populatorRunning := false;
     connectionListeners := 0;
     serverReady := false;
     discoveries := 0;
     populations := 0;
     disconnected := [];
     emittedEvents := [] |}.

(** *** [start] and [stop] *)

Definition P (A : Type) : Type := t → t * (P2PError + A).

#[global] Instance P_ret : MRet P := λ A a node, (node, inr a).
#[global] Instance P_bind : MBind P := λ A B f c node,
  match c node with
  | (node', inr a) => f a node'
  | (node', inl e) => (node', inl e)
  end.
#[global] Instance P_throw : MThrow P2PError P := λ A e node, (node, inl e).

Definition self : P t := λ node, (node, inr node).
Definition update (f : t → t) : P unit := λ node, (f node, inr ()).

Definition with_lifecycle (active connected interval running ready : bool)
    (listeners nDiscoveries nPopulations : nat) (pool : PeerPool)
    (node : t) : t :=
  {| _isActive := active;
     _hasConnected := connected;
     _peerBook := _peerBook node;
     _peerPool := pool;
     _bannedPeers := _bannedPeers node;
     whitelisted := whitelisted node;
     _populatorIntervalId := interval;
     populatorRunning := running;
     connectionListeners := listeners;
     serverReady := ready;
     discoveries := nDiscoveries;
     populations := nPopulations;
     disconnected := disconnected node;
     emittedEvents := emittedEvents node |}.

Definition set_isActive (b : bool) (node : t) : t :=
  with_lifecycle b (_hasConnected node) (_populatorIntervalId node)
    (populatorRunning node) (serverReady node) (connectionListeners node)
    (discoveries node) (populations node) (_peerPool node) node.

Definition set_hasConnected (b : bool) (node : t) : t :=
  with_lifecycle (_isActive node) b (_populatorIntervalId node)
    (populatorRunning node) (serverReady node) (connectionListeners node)
    (discoveries node) (populations node) (_peerPool node) node.

Definition set_populator (interval running : bool) (node : t) : t :=
  with_lifecycle (_isActive node) (_hasConnected node) interval running
    (serverReady node) (connectionListeners node)
    (discoveries node) (populations node) (_peerPool node) node.

Definition set_server (listeners : nat) (ready : bool) (node : t) : t :=
  with_lifecycle (_isActive node) (_hasConnected node)
    (_populatorIntervalId node) (populatorRunning node) ready listeners
    (discoveries node) (populations node) (_peerPool node) node.

Definition set_peerPool (pool : PeerPool) (node : t) : t :=
  with_lifecycle (_isActive node) (_hasConnected node)
    (_populatorIntervalId node) (populatorRunning node) (serverReady node)
    (connectionListeners node) (discoveries node) (populations node)
    pool node.

(** [this._peerPool.discoverSeedPeers()] *)
Definition discoverSeedPeers (node : t) : t :=
  with_lifecycle (_isActive node) (_hasConnected node)
    (_populatorIntervalId node) (populatorRunning node) (serverReady node)
    (connectionListeners node) (S (discoveries node)) (populations node)
    (_peerPool node) node.

(** [this._peerPool.triggerNewConnections(newPeers, triedPeers)] *)
Definition triggerNewConnections (node : t) : t :=
  with_lifecycle (_isActive node) (_hasConnected node)
    (_populatorIntervalId node) (populatorRunning node) (serverReady node)
    (connectionListeners node) (discoveries node) (S (populations node))
    (_peerPool node) node.

(** [DEFAULT_MIN_TRIED_PEER_COUNT] is in [constants.ts], which is not
    among the sources; the specification names it [minTriedPeerCount]
    without a value, so it is a parameter of [start]. *)
Section lifecycle.
Variable DEFAULT_MIN_TRIED_PEER_COUNT : nat.

(** [_startPeerServer] registers the connection listener and sets
    [_isActive] once the master server is ready: at once if it is,
    and when its 'ready' event arrives otherwise.  The promise that
    [start] awaits resolves after that assignment. *)
Definition _startPeerServer : P unit :=
  update (λ node, set_server (S (connectionListeners node)) true node);;
  update (set_isActive true).

Definition _stopPeerServer : P unit :=
  update (λ node, set_server (connectionListeners node) false node).

Definition _startPopulator : P unit :=
  node ← self;
  if _populatorIntervalId node then mthrow PopulatorAlreadyRunning
  else
    update (set_populator true true);;
    update triggerNewConnections.

(** [clearInterval] stops the timer; the id stays in the field. *)
Definition _stopPopulator : P unit :=
  node ← self;
  if _populatorIntervalId node
  then update (set_populator true false)
  else mret ().

Definition start : P unit :=
  node ← self;
  if _isActive node then mthrow NodeAlreadyActive
  else
    _startPeerServer;;
    node ← self;
    if _isActive node then
      (if decide (base.size (triedPeers (_peerBook node))
                  < DEFAULT_MIN_TRIED_PEER_COUNT)%nat
       then update discoverSeedPeers
       else mret ());;
      _startPopulator
    else mret ().

Definition stop : P unit :=
  node ← self;
  if negb (_isActive node) then mthrow NodeNotActive
  else
    update (set_isActive false);;
    update (set_hasConnected false);;
    _stopPopulator;;
    update (λ node, set_peerPool (removeAllPeers (_peerPool node)) node);;
    _stopPeerServer.
End lifecycle.

End P2P.

(** ** Concrete inputs used by the examples *)

Definition header_1_by_A : BlockHeader := mkHeader 1 0 0 1 "A".
Definition header_2_by_A : BlockHeader := mkHeader 2 1 0 1 "A".

Module P2PExamples.
Import P2P.

Definition peerAt (port : Z) : P2PPeerInfo :=
  {| peerId := "10.0.0.1:" +:+ pretty port;
     ipAddress := "10.0.0.1";
     wsPort := port;
     sharedState := ∅;
     internalState := Some {| advertiseAddress := true;
                              connectionKind := NONE |} |}.

Definition thirtyPeers : list P2PPeerInfo := peerAt <$> seqZ 5000 30.

(** The length of [JSON.stringify] of a list of entries of the form
    [{"ipAddress":"10.0.0.1","wsPort":5000}]: 38 bytes for an entry, the
    separating commas and the two brackets. *)
Definition jsonByteSize (l : list ProtocolPeerInfo) : Z :=
  39 * Z.of_nat (length l) + 1.

Definition smallPayload : P2PConfig :=
  {| minimumPeerDiscoveryThreshold := None;
     peerDiscoveryResponseLength := None;
     wsMaxPayload := Some 1000;
     maxPeerInfoSize := Some 100 |}.

End P2PExamples.

(** A manager for one active delegate, as the constructor returns it. *)
Definition manager_of_one : FinalityManager :=
  {| activeDelegates := 1;
     headers := HeadersList.empty 5;
     finalizedHeight := 0;
     chainMaxHeightPrevoted := 0;
     state := ∅;
     preVotes := ∅;
     preCommits := ∅;
     emitted := [] |}.

(** The second scenario of the specification: a delegate that claims to
    have forged at height 200 forges at height 150. *)
Definition equivocating_header : BlockHeader := mkHeader 150 200 0 1 "D".

(** ** Further invariants of the finality manager *)

(** No delegate has pre-voted below height 0. *)
Definition delegatesVotedNonneg (st : gmap string DelegateState) : Prop :=
  ∀ k s, st !! k = Some s → 0 ≤ maxPreVoteHeight s.

(** The pre-vote tally and [chainMaxHeightPrevoted] are related like the
    pre-commit tally and the finalized height, the pre-voted height of a
    new manager being 0. *)
Definition prevoteInv (fm : FinalityManager) : Prop :=
  0 < activeDelegates fm
  ∧ (0 < HeadersList.size (headers fm))%nat
  ∧ countsPositive (preVotes fm)
  ∧ delegatesVotedNonneg (state fm)
  ∧ finalityInv (Z.to_nat (maxHeaders fm)) (preVoteThreshold fm) 0
      (preVotes fm) (chainMaxHeightPrevoted fm).

(** Every height whose pre-commits reach the threshold, and the finalized
    height, is at most the pre-voted height. *)
Definition commitInv (fm : FinalityManager) : Prop :=
  (∀ j c, preCommits fm !! j = Some c → preCommitThreshold fm ≤ c →
          j ≤ chainMaxHeightPrevoted fm)
  ∧ finalizedHeight fm ≤ chainMaxHeightPrevoted fm.

(** The delegates that have pre-voted, respectively pre-committed, for
    height [j] or above. *)
Definition preVoters (j : Z) (st : gmap string DelegateState) : gset string :=
  dom (filter (λ kv, j ≤ maxPreVoteHeight kv.2) st).

Definition preCommitters (j : Z) (st : gmap string DelegateState)
    : gset string :=
  dom (filter (λ kv, j ≤ maxPreCommitHeight kv.2) st).

(** No vote is counted twice: a tally is at most the number of delegates
    whose recorded height covers it.  [B] bounds the heights that the
    delegates have pre-voted for. *)
Definition tallyBound (B : Z) (fm : FinalityManager) : Prop :=
  (∀ j c, preVotes fm !! j = Some c →
          c ≤ Z.of_nat (base.size (preVoters j (state fm))))
  ∧ (∀ j c, preCommits fm !! j = Some c →
            c ≤ Z.of_nat (base.size (preCommitters j (state fm))))
  ∧ (∀ k s, state fm !! k = Some s → maxPreVoteHeight s ≤ B)
  ∧ (∀ j, is_Some (preCommits fm !! j) → j < B).

(** What holds of every reachable manager. *)
Definition reachableInv (fm : FinalityManager) : Prop :=
  prevotedInv fm
  ∧ tallyBound (maxHeight fm) fm
  ∧ Z.of_nat (base.size (preVotes fm)) ≤ maxHeaders fm
  ∧ Z.of_nat (base.size (preCommits fm)) ≤ maxHeaders fm.

(** ** The P2P coordinator: views, configuration and peer events *)

Module P2PViews.
Import P2P.

(** [{...peer.sharedState, ipAddress: peer.ipAddress, wsPort: peer.wsPort}]:
  the two trailing attributes override the shared state. *)
Definition triedEntry (peer : P2PPeerInfo) : ProtocolPeerInfo :=
<["wsPort" := JSNumber (wsPort peer)]>
  (<["ipAddress" := JSString (ipAddress peer)]> (sharedState peer)).

(** [getTriedPeers], given the array [this._peerBook.triedPeers]. *)
Definition getTriedPeers (triedPeers : list P2PPeerInfo)
  : list ProtocolPeerInfo :=
triedEntry <$> triedPeers.

(** [{...peer.sharedState, ipAddress: peer.ipAddress, wsPort: peer.wsPort,
    peerId: peer.peerId}] *)
Definition connectedEntry (peer : P2PPeerInfo) : ProtocolPeerInfo :=
<["peerId" := JSString (peerId peer)]>
  (<["wsPort" := JSNumber (wsPort peer)]>
     (<["ipAddress" := JSString (ipAddress peer)]> (sharedState peer))).

(** [getConnectedPeers], given the array that
  [this._peerPool.getAllConnectedPeerInfos()] returns. *)
Definition getConnectedPeers (connectedPeerInfos : list P2PPeerInfo)
  : list ProtocolPeerInfo :=
connectedEntry <$> List.filter advertised connectedPeerInfos.

(** [getDisconnectedPeers], given the arrays [this._peerBook.allPeers] and
  [this._peerPool.getAllConnectedPeerInfos()]. *)
Definition getDisconnectedPeers (allPeers connectedPeerInfos : list P2PPeerInfo)
  : list ProtocolPeerInfo :=
let connectedPeers := getConnectedPeers connectedPeerInfos in
let disconnectedPeers :=
  List.filter
    (λ peer,
       match List.find
               (λ connectedPeer,
                  bool_decide (connectedPeer !! "peerId"
                               = Some (JSString (peerId peer))))
               connectedPeers with
       | Some _ => false
       | None => true
       end)
    allPeers in
connectedEntry <$> List.filter advertised disconnectedPeers.

(** [_isNetworkReady], given the length of
  [this._peerPool.getConnectedPeers()]. *)
Definition _isNetworkReady (connectedPeers : nat) (node : t) : t * bool :=
if negb (_hasConnected node) && bool_decide (0 < connectedPeers)%nat
then (set_hasConnected true node, true)
else (node, false).

(** The results of calling [_isNetworkReady] once for every element of
  [counts], the pool holding that many connected peers at the call. *)
Definition isNetworkReadyCalls (counts : list nat) (node : t) : t * list bool :=
foldl (λ acc n, let r := _isNetworkReady n acc.1 in (r.1, acc.2 ++ [r.2]))
      (node, []) counts.

(** *** Configuration *)

(** [maxPayload: config.wsMaxPayload ?? DEFAULT_WS_MAX_PAYLOAD], the limit
  that the constructor gives to the master server: only [undefined] is
  replaced. *)
Definition masterServerMaxPayload (config : P2PConfig) : Z :=
default DEFAULT_WS_MAX_PAYLOAD (wsMaxPayload config).

(** The fields of the pool configuration that are computed from the
  modelled part of [P2PConfig]. *)
Record PeerPoolConfig := mkPoolConfig {
pool_wsMaxPayload : Z;
pool_maxPeerInfoSize : Z;
}.

Definition createPeerPoolConfig (config : P2PConfig) : PeerPoolConfig :=
{| pool_wsMaxPayload :=
     orDefault (wsMaxPayload config) DEFAULT_WS_MAX_PAYLOAD;
   pool_maxPeerInfoSize :=
     orDefault (maxPeerInfoSize config) DEFAULT_MAX_PEER_INFO_SIZE |}.

(** *** Bans *)

(** [peerId.split(':')[0]]: the part of the string before its first
  colon, the whole string when it has none. *)
Fixpoint ipAddressOf (peerId : string) : string :=
match peerId with
| EmptyString => EmptyString
| String c rest =>
    if decide (String c EmptyString = ":") then EmptyString else String c (ipAddressOf rest)
end.

(** Modelled from the spec: [PeerBook.removePeer] evicts the peer from
  whichever table holds it. *)
Definition removePeer (id : string) (book : PeerBook) : PeerBook :=
{| newPeers := delete id (newPeers book);
   triedPeers := delete id (triedPeers book) |}.

(** Modelled from the spec: [PeerPool.hasPeer(peerId)], whether the pool
  holds a live connection under that id. *)
Definition hasPeer (id : string) (pool : PeerPool) : bool :=
bool_decide (is_Some (pool_getPeer id pool)).

Definition set_peerBook (book : PeerBook) (node : t) : t :=
with_connection (_peerPool node) book (disconnected node)
  (emittedEvents node) node.

(** The events that the handlers below re-emit. *)
Inductive PeerEvent :=
| EVENT_BAN_PEER (peerId : string)
| EVENT_UNBAN_PEER (peerId : string)
| EVENT_DISCOVERED_PEER (peer : P2PPeerInfo).

(** [_handleBanPeer]: the node after the call and the events that the
  call emits. *)
Definition _handleBanPeer (peerId : string) (node : t) : t * list PeerEvent :=
let node1 :=
  set_bannedPeers ({[ipAddressOf peerId]} ∪ _bannedPeers node) node in
let isWhitelisted := bool_decide (peerId ∈ whitelisted node1) in
let node2 :=
  if bool_decide (is_Some (book_getPeer peerId (_peerBook node1)))
     && negb isWhitelisted
  then set_peerBook (removePeer peerId (_peerBook node1)) node1
  else node1 in
(node2, [EVENT_BAN_PEER peerId]).

(** [_handleUnbanPeer] *)
Definition _handleUnbanPeer (peerId : string) (node : t) : t * list PeerEvent :=
(set_bannedPeers (_bannedPeers node ∖ {[ipAddressOf peerId]}) node,
 [EVENT_UNBAN_PEER peerId]).

(** *** Discovered peers *)

Section discovered_peer.
(** [PeerBook.updatePeer] and [PeerBook.upgradePeer] are not among the
sources: the handler is taken with them as parameters.  [updatePeer]
returns the book together with [isUpdated]. *)
Variable updatePeer : P2PPeerInfo → PeerBook → PeerBook * bool.
Variable upgradePeer : P2PPeerInfo → PeerBook → PeerBook.

(** [_handleDiscoveredPeer], given the peer ids of
[_sanitizedPeerLists.blacklistedPeers].  The shared state of a
[P2PPeerInfo] is always an object here, so [updatedPeerInfo] is a
copy of [detailedPeerInfo]. *)
Definition _handleDiscoveredPeer (blacklistedPeers : gset string)
(detailedPeerInfo : P2PPeerInfo) (node : t) : t * list PeerEvent :=
let isBlacklisted :=
bool_decide (peerId detailedPeerInfo ∈ blacklistedPeers) in
if negb (bool_decide
         (is_Some (book_getPeer (peerId detailedPeerInfo)
                     (_peerBook node))))
 && negb isBlacklisted
then
match addPeer detailedPeerInfo (_peerBook node) with
| inr book => (set_peerBook book node,
               [EVENT_DISCOVERED_PEER detailedPeerInfo])
| inl existing =>
    if negb (hasPeer (peerId existing) (_peerPool node)) then
      let updatedPeerInfo := detailedPeerInfo in
      let '(book, isUpdated) := updatePeer updatedPeerInfo (_peerBook node) in
      if isUpdated
      then (set_peerBook (upgradePeer updatedPeerInfo book) node, [])
      else (set_peerBook book node, [])
    else (node, [])
end
else (node, []).
End discovered_peer.

End P2PViews.

(** ** The block processor of version 0

    [BlockProcessorV0] is where a block gets the two BFT attributes that
    the finality manager reads, and where a block is assembled from the
    pending transactions. *)

Module BlockProcessorV0.

(** [value || fallback] for an optional number: [undefined] and [0] are
  falsy. *)
Definition orElse (value : option Z) (fallback : Z) : Z :=
match value with
| Some v => if decide (v = 0) then fallback else v
| None => fallback
end.

(** What the second stage of the [deserialize] pipe reads of
  [updatedBlock], the block that [blocksModule.deserialize] returned. *)
Record Block := mkBlock {
height : Z;
generatorPublicKey : string;
maxHeightPreviouslyForged : option Z;
maxHeightPrevoted : option Z;
}.

(** The second stage of the [deserialize] pipe. *)
Definition deserialize (updatedBlock : Block) : Block :=
{| height := height updatedBlock;
   generatorPublicKey := generatorPublicKey updatedBlock;
   maxHeightPreviouslyForged :=
     Some (orElse (maxHeightPreviouslyForged updatedBlock)
                  (height updatedBlock));
   maxHeightPrevoted := Some (orElse (maxHeightPrevoted updatedBlock) 0) |}.

(** What [_create] reads of a transaction: [transaction.getBytes(transaction)],
  [transaction.fee] and [transaction.asset.amount]. *)
Record Transaction := mkTransaction {
getBytes : list Byte.byte;
fee : Z;
amount : option Z;
}.

(** The variables of the loop of [_create]. *)
Record Selection := mkSelection {
size : Z;
totalFee : Z;
totalAmount : Z;
blockTransactions : list Transaction;
transactionsBytesArray : list (list Byte.byte);
}.

(** [for (const transaction of trs)] with its [break]. *)
Fixpoint selectTransactions (maxPayloadLength : Z) (trs : list Transaction)
  (acc : Selection) : Selection :=
match trs with
| [] => acc
| transaction :: rest =>
    let transactionBytes := getBytes transaction in
    if decide (size acc + Z.of_nat (length transactionBytes)
               > maxPayloadLength)
    then acc
    else
      selectTransactions maxPayloadLength rest
        {| size := size acc + Z.of_nat (length transactionBytes);
           totalFee := totalFee acc + fee transaction;
           totalAmount := totalAmount acc + orElse (amount transaction) 0;
           blockTransactions := blockTransactions acc ++ [transaction];
           transactionsBytesArray :=
             transactionsBytesArray acc ++ [transactionBytes] |}
end.

Record PreviousBlock := mkPrevious {
previous_height : Z;
previous_id : string;
}.

(** The object [block] of [_create], to which the method adds the
  signature of its bytes. *)
Record NewBlock := mkNewBlock {
new_version : Z;
new_totalAmount : Z;
new_totalFee : Z;
new_height : Z;
new_reward : Z;
new_payloadHash : string;
new_timestamp : Z;
new_numberOfTransactions : Z;
new_payloadLength : Z;
new_previousBlockId : string;
new_generatorPublicKey : string;
new_transactions : list Transaction;
}.

(** [previousBlock.id] when [previousBlock] is [undefined] *)
Inductive CreateError := TypeError.

Section create.
(** [blocksModule.blockReward.calculateReward] and [hash] followed by
[toString('hex')] are not among the sources: [_create] is taken with
them as parameters. *)
Variable calculateReward : Z → Z.
Variable hashHex : list Byte.byte → string.
(** [this.constants.maxPayloadLength] *)
Variable maxPayloadLength : Z.

(** [_create] up to the object [block]; [publicKey] is
[keypair.publicKey.toString('hex')]. *)
Definition _create (transactions : option (list Transaction))
(previousBlock : option PreviousBlock) (publicKey : string)
(timestamp : Z) : CreateError + NewBlock :=
let nextHeight :=
match previousBlock with
| Some previous => previous_height previous + 1
| None => 1
end in
let reward := calculateReward nextHeight in
let trs := default [] transactions in
let selected :=
selectTransactions maxPayloadLength trs
  {| size := 0; totalFee := 0; totalAmount := 0;
     blockTransactions := []; transactionsBytesArray := [] |} in
let transactionsBuffer := concat (transactionsBytesArray selected) in
let payloadHash := hashHex transactionsBuffer in
match previousBlock with
| None => inl TypeError
| Some previous =>
  inr {| new_version := 0;
         new_totalAmount := totalAmount selected;
         new_totalFee := totalFee selected;
         new_height := nextHeight;
         new_reward := reward;
         new_payloadHash := payloadHash;
         new_timestamp := timestamp;
         new_numberOfTransactions :=
           Z.of_nat (length (blockTransactions selected));
         new_payloadLength := size selected;
         new_previousBlockId := previous_id previous;
         new_generatorPublicKey := publicKey;
         new_transactions := blockTransactions selected |}
end.
End create.

End BlockProcessorV0.

Example keys_ascending :
  Tally.keys (<[7 := 1]> (<[3 := 2]> (<[12 := 1]> ∅))) = [3; 7; 12].
Proof. reflexivity. Qed.

Example highest_example :
  Tally.highest (<[7 := 1]> (<[3 := 2]> (<[12 := 1]> ∅))) 2 = Some 3.
Proof. reflexivity. Qed.

(** *** Facts about tallies *)

Section tally_facts.
Implicit Types (o : gmap Z Z) (j : Z) (n : nat).

Lemma keys_Permutation o : Tally.keys o ≡ₚ elements (dom o).
Proof. apply merge_sort_Permutation. Qed.

Lemma elem_of_keys o j : j ∈ Tally.keys o ↔ is_Some (o !! j).
Proof. by rewrite keys_Permutation, elem_of_elements, elem_of_dom. Qed.

Lemma keys_sorted o : StronglySorted Z.le (Tally.keys o).
Proof. apply (StronglySorted_merge_sort Z.le). Qed.

Lemma keys_NoDup o : NoDup (Tally.keys o).
Proof. rewrite keys_Permutation. apply NoDup_elements. Qed.

Lemma keys_length o : List.length (Tally.keys o) = base.size o.
Proof. by rewrite keys_Permutation, <- size_dom. Qed.

Lemma reaches_spec o t j :
  Tally.reaches o t j = true ↔ ∃ c, o !! j = Some c ∧ t ≤ c.
Proof.
  unfold Tally.reaches. destruct (o !! j) as [c|].
  - rewrite bool_decide_eq_true. split; [eauto|]. by intros (? & [= <-] & ?).
  - split; [done|]. by intros (? & ? & ?).
Qed.

(** The first hit of a search from the high end of an ascending list is
    the greatest element that satisfies the test. *)
Lemma find_reverse_sorted (P : Z → bool) (l : list Z) :
  StronglySorted Z.le l →
  match find P (reverse l) with
  | Some x => x ∈ l ∧ P x = true ∧ ∀ y, y ∈ l → P y = true → y ≤ x
  | None => ∀ y, y ∈ l → P y = false
  end.
Proof.
  induction l as [|a l IH] using rev_ind; intros Hs.
  - simpl. intros y Hy. by apply elem_of_nil in Hy.
  - rewrite reverse_snoc. simpl.
    apply StronglySorted_app in Hs as (Hle & Hl & _).
    specialize (IH Hl). destruct (P a) eqn:Ha.
    + split; [apply elem_of_app; right; apply elem_of_cons; by left|].
      split; [done|].
      intros y Hy _. apply elem_of_app in Hy as [Hy|Hy].
      * apply Hle; [done|apply elem_of_cons; by left].
      * apply list_elem_of_singleton in Hy. lia.
    + destruct (find P (reverse l)) as [x|].
      * destruct IH as (Hx & HP & Hmax).
        split; [apply elem_of_app; by left|]. split; [done|].
        intros y Hy HPy. apply elem_of_app in Hy as [Hy|Hy]; [by apply Hmax|].
        apply list_elem_of_singleton in Hy. congruence.
      * intros y Hy. apply elem_of_app in Hy as [Hy|Hy]; [by apply IH|].
        apply list_elem_of_singleton in Hy. congruence.
Qed.

Lemma highest_Some o t j :
  Tally.highest o t = Some j →
  (∃ c, o !! j = Some c ∧ t ≤ c) ∧
  ∀ j' c', o !! j' = Some c' → t ≤ c' → j' ≤ j.
Proof.
  unfold Tally.highest. intros Hf.
  pose proof (find_reverse_sorted (Tally.reaches o t) _ (keys_sorted o)) as H.
  rewrite Hf in H. destruct H as (_ & Hr & Hmax). split.
  - by apply reaches_spec.
  - intros j' c' Hj' Hc'. apply Hmax.
    + apply elem_of_keys. eauto.
    + apply reaches_spec. eauto.
Qed.

Lemma highest_None o t j c :
  Tally.highest o t = None → o !! j = Some c → c < t.
Proof.
  unfold Tally.highest. intros Hf Hj.
  pose proof (find_reverse_sorted (Tally.reaches o t) _ (keys_sorted o)) as H.
  rewrite Hf in H. specialize (H j).
  destruct (decide (t ≤ c)) as [Hle|]; [|lia].
  assert (Tally.reaches o t j = true) as Hr by (apply reaches_spec; eauto).
  rewrite H in Hr; [done|]. apply elem_of_keys. eauto.
Qed.

Lemma highest_is_Some o t j c :
  o !! j = Some c → t ≤ c → is_Some (Tally.highest o t).
Proof.
  intros Hj Hc. destruct (Tally.highest o t) eqn:Hh; [eauto|].
  pose proof (highest_None _ _ _ _ Hh Hj). lia.
Qed.

(** [trim] deletes the keys of the low prefix and nothing else. *)
Lemma lookup_trim n o j :
  Tally.trim n o !! j =
  if decide (j ∈ take (List.length (Tally.keys o) - n) (Tally.keys o))
  then None else o !! j.
Proof.
  unfold Tally.trim. case_decide.
  - by apply lookup_foldr_delete.
  - by apply lookup_foldr_delete_not_elem_of.
Qed.

Lemma trim_lookup_Some n o j c :
  Tally.trim n o !! j = Some c → o !! j = Some c.
Proof. rewrite lookup_trim. by case_decide. Qed.

Lemma elem_of_trim_kept n o j :
  is_Some (Tally.trim n o !! j) ↔
  j ∈ drop (List.length (Tally.keys o) - n) (Tally.keys o).
Proof.
  rewrite lookup_trim.
  pose proof (keys_NoDup o) as Hnd.
  rewrite <- (take_drop (List.length (Tally.keys o) - n)) in Hnd.
  apply NoDup_app in Hnd as (_ & Hdisj & _).
  case_decide as Hin.
  - split; [by intros [? ?]|]. intros Hd. by destruct (Hdisj _ Hin).
  - rewrite <- elem_of_keys.
    rewrite <- (take_drop (List.length (Tally.keys o) - n) (Tally.keys o)) at 1.
    rewrite elem_of_app. tauto.
Qed.

(** The keys that survive [trim] are upward closed. *)
Lemma trim_upward n o j j' :
  is_Some (Tally.trim n o !! j) → is_Some (o !! j') → j ≤ j' →
  Tally.trim n o !! j' = o !! j'.
Proof.
  intros Hj Hj' Hle. rewrite lookup_trim. case_decide as Hin; [|done].
  apply elem_of_trim_kept in Hj.
  pose proof (keys_sorted o) as Hs. pose proof (keys_NoDup o) as Hnd.
  rewrite <- (take_drop (List.length (Tally.keys o) - n)) in Hs, Hnd.
  pose proof (StronglySorted_app_1_elem_of _ _ _ _ _ Hs Hin Hj) as Hle'.
  assert (j = j') as -> by lia.
  apply NoDup_app in Hnd as (_ & Hdisj & _). by destruct (Hdisj _ Hin).
Qed.

Lemma trim_size n o : base.size (Tally.trim n o) = (n `min` base.size o)%nat.
Proof.
  assert (dom (Tally.trim n o)
          = list_to_set (drop (List.length (Tally.keys o) - n) (Tally.keys o)))
    as Hdom.
  { apply set_eq. intros j.
    by rewrite elem_of_dom, elem_of_trim_kept, elem_of_list_to_set. }
  rewrite <- size_dom, Hdom, size_list_to_set.
  - rewrite length_drop, keys_length. lia.
  - pose proof (keys_NoDup o) as Hnd.
    rewrite <- (take_drop (List.length (Tally.keys o) - n)) in Hnd.
    by apply NoDup_app in Hnd as (_ & _ & ?).
Qed.

Lemma trim_small n o : (base.size o ≤ n)%nat → Tally.trim n o = o.
Proof.
  intros Hle. unfold Tally.trim. rewrite keys_length.
  by replace (base.size o - n)%nat with 0%nat by lia.
Qed.

(** A key that [trim] deletes lies below every key that it keeps, and
    exactly [n] keys are kept in that case. *)
Lemma trim_dropped n o j j' :
  is_Some (o !! j) → Tally.trim n o !! j = None →
  base.size (Tally.trim n o) = n ∧
  (is_Some (Tally.trim n o !! j') → j < j').
Proof.
  intros Hj Hnone. split.
  - rewrite trim_size. destruct (decide (base.size o ≤ n)%nat) as [Hle|]; [|lia].
    rewrite (trim_small _ _ Hle) in Hnone. destruct Hj as [? Hj]. congruence.
  - intros Hj'. destruct (decide (j < j')) as [|Hge]; [done|].
    rewrite (trim_upward n o j' j) in Hnone by (done || lia).
    destruct Hj as [? Hj]. congruence.
Qed.

Lemma cleanup_trim (n : Z) o :
  0 < n → Tally.cleanup n o = Tally.trim (Z.to_nat n) o.
Proof.
  intros Hn. unfold Tally.cleanup, Tally.trim, Tally.slice0.
  rewrite decide_True by lia. do 2 f_equal. lia.
Qed.

Lemma lookup_increment j o j' :
  Tally.increment j o !! j' =
  if decide (j = j') then Some (default 0 (o !! j) + 1) else o !! j'.
Proof. unfold Tally.increment. apply lookup_insert. Qed.

End tally_facts.

(** ** The walk along the chain of previously forged heights *)

Section min_valid_height.
Variables (hl : HeadersList.t) (h : BlockHeader).

(** The loop of the source returns a value that the loop of the
    specification returns as well; in particular it terminates. *)
Lemma minValidLoop_specLoop searchTill needle current :
  specLoop hl h searchTill needle current
    (minValidLoop hl (delegatePublicKey h) searchTill needle current).
Proof.
  remember (delegatePublicKey h) as key eqn:Hkey.
  funelim (minValidLoop hl key searchTill needle current).
  - apply specLoop_end. lia.
  - apply specLoop_down; [done..|]. by apply H.
  - by apply specLoop_absent.
  - by eapply specLoop_other.
  - eapply specLoop_follow; [done..| | |by apply H].
    + destruct (decide (delegatePublicKey previous = delegatePublicKey h))
        as [|Hne]; [done|].
      exfalso. eauto.
    + lia.
Qed.

(** The loop of the specification is deterministic. *)
Lemma specLoop_deterministic searchTill needle current r1 r2 :
  specLoop hl h searchTill needle current r1 →
  specLoop hl h searchTill needle current r2 →
  r1 = r2.
Proof.
  intros H1. revert r2.
  induction H1 as [needle current Hlt
                  |needle current Hle Hn Hget
                  |needle current prev Hle Hn Hget Hor
                  |needle current prev r Hle Hn Hget Hk Hlt _ IH
                  |needle current r Hle Hn _ IH];
    intros r2 H2; inversion H2; subst;
    try match goal with
        | G1 : ?g = Some _, G2 : ?g = Some _ |- _ =>
            rewrite G1 in G2; injection G2 as <-
        end;
    try congruence; try lia; try (by apply IH);
    match goal with
    | G : _ ∨ _ |- _ => exfalso; destruct G; [congruence|lia]
    end.
Qed.

End min_valid_height.

Example minValid_follows_chain :
  _getMinValidHeightToPreCommit
    {| activeDelegates := 2;
       headers := HeadersList.mk
         [mkHeader 4 0 0 1 "A"; mkHeader 5 0 0 1 "B"; mkHeader 6 4 0 1 "A";
          mkHeader 7 5 0 1 "B"; mkHeader 8 6 0 1 "A"] 10;
       finalizedHeight := 0; chainMaxHeightPrevoted := 0;
       state := ∅; preVotes := ∅; preCommits := ∅; emitted := [] |}
    (mkHeader 8 6 0 1 "A") = 4.
Proof. reflexivity. Qed.

(** C4: [_getMinValidHeightToPreCommit] computes exactly the result of the
    loop [minValidCommitHeight] of the specification: started from
    needle = max(h.maxHeightPreviouslyForged, h.height - processingThreshold)
    and searchTill = max(minHeight, h.height - processingThreshold), the
    specification's loop returns [r] (0 for an absent previous header,
    needle + 1 for a header of another delegate or one whose
    maxHeightPreviouslyForged is not below the needle, and
    max(needle + 1, searchTill) at the end of the loop) if and only if
    [r] is the value the method returns. *)
Theorem getMinValidHeightToPreCommit_refines_spec
    (fm : FinalityManager) (h : BlockHeader) (r : Z) :
  minValidCommitHeight fm h r ↔ r = _getMinValidHeightToPreCommit fm h.
Proof.
  unfold minValidCommitHeight, _getMinValidHeightToPreCommit. split.
  - intros Hspec. eapply specLoop_deterministic; [exact Hspec|].
    apply minValidLoop_specLoop.
  - intros ->. apply minValidLoop_specLoop.
Qed.

(** ** Vote accounting *)

Section accounting_loops.
Implicit Types (pv pc : gmap Z Z) (ds : DelegateState) (lo hi j : Z).

Lemma range_seqZ lo hi :
  range lo hi = seqZ lo (Z.of_nat (Z.to_nat (hi - lo + 1))).
Proof. unfold range, seqZ. by rewrite Nat2Z.id. Qed.

(** The pre-vote loop adds one vote to every height of the range. *)
Lemma preVote_loop_seq pv lo (n : nat) j :
  foldl (λ acc k, Tally.increment k acc) pv (seqZ lo (Z.of_nat n)) !! j =
  if decide (lo ≤ j < lo + Z.of_nat n)
  then Some (default 0 (pv !! j) + 1) else pv !! j.
Proof.
  induction n as [|n IH].
  - simpl. rewrite decide_False by lia. done.
  - rewrite seqZ_S, foldl_app. simpl. rewrite lookup_increment.
    rewrite Nat2Z.inj_succ.
    destruct (decide (lo + Z.of_nat n = j)) as [<-|Hne].
    + rewrite IH. rewrite decide_False by lia. rewrite decide_True by lia. done.
    + rewrite IH. repeat case_decide; (done || lia).
Qed.

Lemma preVote_loop pv lo hi j :
  foldl (λ acc k, Tally.increment k acc) pv (range lo hi) !! j =
  if decide (lo ≤ j ≤ hi) then Some (default 0 (pv !! j) + 1) else pv !! j.
Proof.
  rewrite range_seqZ, preVote_loop_seq. repeat case_decide; (done || lia).
Qed.

(** The pre-commit loop adds one commit to every height of the range
    whose pre-vote tally reaches the threshold, and leaves the delegate's
    [maxPreCommitHeight] at the greatest such height. *)
Lemma preCommit_loop_seq pv t pc ds lo (n : nat) :
  let r := foldl (preCommitStep pv t) (pc, ds) (seqZ lo (Z.of_nat n)) in
  (∀ j, r.1 !! j =
        if decide (lo ≤ j < lo + Z.of_nat n ∧ Tally.reaches pv t j = true)
        then Some (default 0 (pc !! j) + 1) else pc !! j)
  ∧ maxPreVoteHeight r.2 = maxPreVoteHeight ds
  ∧ (∀ j, lo ≤ j < lo + Z.of_nat n → Tally.reaches pv t j = true →
          j ≤ maxPreCommitHeight r.2)
  ∧ ((maxPreCommitHeight r.2 = maxPreCommitHeight ds
      ∧ ∀ j, lo ≤ j < lo + Z.of_nat n → Tally.reaches pv t j = false)
     ∨ (lo ≤ maxPreCommitHeight r.2 < lo + Z.of_nat n
        ∧ Tally.reaches pv t (maxPreCommitHeight r.2) = true)).
Proof.
  induction n as [|n IH]; intros r.
  - subst r. simpl. split_and!; [|done|intros; lia|left; split; [done|intros; lia]].
    intros j. rewrite decide_False by lia. done.
  - subst r. rewrite seqZ_S, foldl_app. simpl.
    destruct IH as (Hpc & Hpv & Hmax & Hlast).
    rewrite Nat2Z.inj_succ.
    set (r := foldl (preCommitStep pv t) (pc, ds) (seqZ lo (Z.of_nat n))) in *.
    assert (preCommitStep pv t r (lo + Z.of_nat n) =
            if Tally.reaches pv t (lo + Z.of_nat n)
            then (Tally.increment (lo + Z.of_nat n) r.1,
                  {| maxPreVoteHeight := maxPreVoteHeight r.2;
                     maxPreCommitHeight := lo + Z.of_nat n |})
            else r) as -> by done.
    destruct (Tally.reaches pv t (lo + Z.of_nat n)) eqn:Hr; simpl.
    + split_and!.
      * intros j. rewrite lookup_increment, !Hpc.
        destruct (decide (lo + Z.of_nat n = j)) as [<-|Hne].
        -- rewrite decide_False by lia. rewrite decide_True by (split; [lia|done]).
           done.
        -- destruct (Tally.reaches pv t j); repeat case_decide; try done;
             exfalso; rewrite ?Nat2Z.inj_succ in *; intuition (lia || congruence).
      * done.
      * intros j Hj Hrj. lia.
      * right. split; [lia|done].
    + split_and!.
      * intros j. rewrite Hpc.
        destruct (decide (lo + Z.of_nat n = j)) as [<-|Hne].
        -- rewrite !decide_False; [done| |]; rewrite Hr; intuition (lia || congruence).
        -- destruct (Tally.reaches pv t j); repeat case_decide; try done;
             exfalso; rewrite ?Nat2Z.inj_succ in *; intuition (lia || congruence).
      * done.
      * intros j Hj Hrj.
        destruct (decide (j = lo + Z.of_nat n)) as [->|]; [congruence|].
        apply Hmax; [lia|done].
      * destruct Hlast as [[Heq Hnone]|[Hin Hreach]].
        -- left. split; [done|]. intros j Hj.
           destruct (decide (j = lo + Z.of_nat n)) as [->|]; [done|].
           apply Hnone. lia.
        -- right. split; [lia|done].
Qed.

End accounting_loops.

Lemma preCommit_loop pv t pc ds lo hi :
  let r := foldl (preCommitStep pv t) (pc, ds) (range lo hi) in
  (∀ j, r.1 !! j =
        if decide (lo ≤ j ≤ hi ∧ Tally.reaches pv t j = true)
        then Some (default 0 (pc !! j) + 1) else pc !! j)
  ∧ maxPreVoteHeight r.2 = maxPreVoteHeight ds
  ∧ (∀ j, lo ≤ j ≤ hi → Tally.reaches pv t j = true →
          j ≤ maxPreCommitHeight r.2)
  ∧ ((maxPreCommitHeight r.2 = maxPreCommitHeight ds
      ∧ ∀ j, lo ≤ j ≤ hi → Tally.reaches pv t j = false)
     ∨ (lo ≤ maxPreCommitHeight r.2 ≤ hi
        ∧ Tally.reaches pv t (maxPreCommitHeight r.2) = true)).
Proof.
  intros r. subst r. rewrite range_seqZ.
  destruct (preCommit_loop_seq pv t pc ds lo (Z.to_nat (hi - lo + 1)))
    as (Hpc & Hpv & Hmax & Hlast).
  split_and!.
  - intros j. rewrite Hpc.
    destruct (Tally.reaches pv t j); repeat case_decide; try done;
      exfalso; intuition (lia || congruence).
  - done.
  - intros j Hj. apply Hmax. lia.
  - destruct Hlast as [[Heq Hnone]|[Hin Hreach]].
    + left. split; [done|]. intros j Hj. apply Hnone. lia.
    + right. split; [lia|done].
Qed.

(** What [updatePreVotesPreCommits] does for a header that passes the
    equivocation guard, with the two loops still folded. *)
Lemma updatePreVotesPreCommits_unfold (fm : FinalityManager) (h : BlockHeader) :
  maxHeightPreviouslyForged h < height h →
  let s := default initialDelegateState (state fm !! delegatePublicKey h) in
  let r := foldl (preCommitStep (preVotes fm) (preVoteThreshold fm))
                 (preCommits fm, s)
                 (range (minPreCommitHeight fm h s) (height h - 1)) in
  updatePreVotesPreCommits h fm =
  (set_votes
     (<[delegatePublicKey h :=
          {| maxPreVoteHeight := height h;
             maxPreCommitHeight := maxPreCommitHeight r.2 |}]> (state fm))
     (foldl (λ pv j, Tally.increment j pv) (preVotes fm)
            (range (minPreVoteHeight fm h s) (height h)))
     r.1 fm,
   true).
Proof.
  intros Hlt s r. unfold updatePreVotesPreCommits.
  rewrite decide_False by lia. fold s. fold r. by destruct r.
Qed.

(** C5: for a header [h] that is not equivocating, vote accounting adds a
    pre-commit at exactly the heights j of
    [max(h.delegateMinHeightActive, minValidCommitHeight(h), s.maxPreCommit + 1),
     h.height - 1] whose pre-vote tally, as it stood before the call,
    reaches the threshold, leaving s.maxPreCommit at the greatest such j;
    and it adds one pre-vote at every height j of
    [max(h.delegateMinHeightActive, h.maxHeightPreviouslyForged + 1,
         s.maxPreVote + 1, h.height - processingThreshold), h.height],
    setting s.maxPreVote to h.height.  The pre-commits are decided on the
    tallies before this header's own pre-votes are added. *)
Theorem updatePreVotesPreCommits_accounting
    (fm : FinalityManager) (h : BlockHeader) :
  maxHeightPreviouslyForged h < height h →
  let s := default initialDelegateState (state fm !! delegatePublicKey h) in
  let fm' := (updatePreVotesPreCommits h fm).1 in
  let committed j :=
    Z.max (delegateMinHeightActive h)
      (Z.max (_getMinValidHeightToPreCommit fm h) (maxPreCommitHeight s + 1))
      ≤ j ≤ height h - 1
    ∧ ∃ c, preVotes fm !! j = Some c ∧ preVoteThreshold fm ≤ c in
  let voted j :=
    Z.max (delegateMinHeightActive h)
      (Z.max (maxHeightPreviouslyForged h + 1)
         (Z.max (maxPreVoteHeight s + 1) (height h - processingThreshold fm)))
      ≤ j ≤ height h in
  (∀ j, committed j →
        preCommits fm' !! j = Some (default 0 (preCommits fm !! j) + 1))
  ∧ (∀ j, ¬ committed j → preCommits fm' !! j = preCommits fm !! j)
  ∧ (∀ j, voted j → preVotes fm' !! j = Some (default 0 (preVotes fm !! j) + 1))
  ∧ (∀ j, ¬ voted j → preVotes fm' !! j = preVotes fm !! j)
  ∧ (∃ s', state fm' = <[delegatePublicKey h := s']> (state fm)
           ∧ maxPreVoteHeight s' = height h
           ∧ (∀ j, committed j → j ≤ maxPreCommitHeight s')
           ∧ (committed (maxPreCommitHeight s')
              ∨ (maxPreCommitHeight s' = maxPreCommitHeight s
                 ∧ ∀ j, ¬ committed j))).
Proof.
  intros Hlt s fm' committed voted. subst fm'.
  rewrite updatePreVotesPreCommits_unfold by done. fold s. simpl.
  destruct (preCommit_loop (preVotes fm) (preVoteThreshold fm) (preCommits fm) s
              (minPreCommitHeight fm h s) (height h - 1))
    as (Hpc & _ & Hmax & Hlast).
  set (r := foldl _ _ _) in *.
  assert (∀ j, committed j ↔
               minPreCommitHeight fm h s ≤ j ≤ height h - 1
               ∧ Tally.reaches (preVotes fm) (preVoteThreshold fm) j = true)
    as Hcommitted.
  { intros j. unfold committed, minPreCommitHeight. by rewrite reaches_spec. }
  split_and!.
  - intros j Hj. rewrite Hpc. by rewrite decide_True by by apply Hcommitted.
  - intros j Hj. rewrite Hpc. by rewrite decide_False by by rewrite <- Hcommitted.
  - intros j Hj. rewrite preVote_loop. by rewrite decide_True.
  - intros j Hj. rewrite preVote_loop. by rewrite decide_False.
  - eexists. split; [done|]. simpl. split_and!; [done| |].
    + intros j Hj. apply Hcommitted in Hj as [? ?]. by apply Hmax.
    + destruct Hlast as [[Heq Hnone]|[Hin Hreach]].
      * right. split; [done|]. intros j Hj.
        apply Hcommitted in Hj as [Hj Hr]. rewrite Hnone in Hr; done.
      * left. by apply Hcommitted.
Qed.

(** ** [addBlockHeader]: errors and the accepted path *)

Lemma bind_unfold {A B} (f : A → M B) (c : M A) fm :
  (c ≫= f) fm =
  match c fm with
  | (fm', inr a) => f a fm'
  | (fm', inl e) => (fm', inl e)
  end.
Proof. done. Qed.

Lemma bind_perform {A B} (g : FinalityManager → FinalityManager * A)
    (f : A → M B) fm :
  (perform g ≫= f) fm = f (g fm).2 (g fm).1.
Proof. unfold perform, mbind, M_bind. by destruct (g fm). Qed.

Lemma validateBlockHeader_state h fm : (validateBlockHeader h fm).1 = fm.
Proof. unfold validateBlockHeader. by case_decide. Qed.

Lemma verifyBlockHeaders_state h fm : (verifyBlockHeaders h fm).1 = fm.
Proof.
  unfold verifyBlockHeaders, this, mbind, M_bind. simpl.
  repeat (case_decide || case_match); done.
Qed.

(** [addBlockHeader] either throws from one of its two checks, or runs
    [acceptHeader]. *)
Lemma addBlockHeader_unfold h fm :
  addBlockHeader h fm =
  match (validateBlockHeader h fm).2 with
  | inl e => (fm, inl e)
  | inr _ =>
      match (verifyBlockHeaders h fm).2 with
      | inl e => (fm, inl e)
      | inr _ => (acceptHeader h fm, inr ())
      end
  end.
Proof.
  unfold addBlockHeader. rewrite bind_unfold.
  pose proof (validateBlockHeader_state h fm) as Hval.
  destruct (validateBlockHeader h fm) as [fm1 [e|[]]]; simpl in *; subst fm1;
    [done|].
  rewrite bind_unfold.
  pose proof (verifyBlockHeaders_state h fm) as Hver.
  destruct (verifyBlockHeaders h fm) as [fm1 [e|b]]; simpl in *; subst fm1;
    [done|].
  rewrite !bind_perform. done.
Qed.

Lemma afterAdd_cases h fm :
  afterAdd fm h = fm ∨ afterAdd fm h = acceptHeader h fm.
Proof.
  unfold afterAdd. rewrite addBlockHeader_unfold.
  repeat case_match; simpl; auto.
Qed.

(** C2: if [addBlockHeader h] raises any error, the manager (headers,
    state, preVotes, preCommits, chainMaxHeightPrevoted, finalizedHeight)
    is exactly what it was before the call. *)
Theorem addBlockHeader_error_atomic
    (fm fm' : FinalityManager) (h : BlockHeader) (e : BFTError) :
  addBlockHeader h fm = (fm', inl e) → fm' = fm.
Proof.
  rewrite addBlockHeader_unfold. repeat case_match; congruence.
Qed.

(** C3: a header with maxHeightPreviouslyForged >= height that passes
    schema validation and [verifyBlockHeaders] is appended to the header
    list, and the vote-accounting step attributes nothing for it:
    preVotes, preCommits and the per-delegate state come out of
    [updatePreVotesPreCommits] as they went in. *)
Theorem equivocating_header_appended_without_votes
    (fm : FinalityManager) (h : BlockHeader) :
  (validateBlockHeader h fm).2 = inr () →
  (verifyBlockHeaders h fm).2 = inr true →
  (0 < HeadersList.size (headers fm))%nat →
  height h ≤ maxHeightPreviouslyForged h →
  ∃ fm',
    addBlockHeader h fm = (fm', inr ())
    ∧ headers fm' = HeadersList.add h (headers fm)
    ∧ HeadersList.last (headers fm') = Some h
    ∧ (∀ fm1, updatePreVotesPreCommits h fm1 = (fm1, false))
    ∧ state fm' = state fm
    ∧ preVotes fm' = Tally.cleanup (maxHeaders fm) (preVotes fm)
    ∧ preCommits fm' = Tally.cleanup (maxHeaders fm) (preCommits fm).
Proof.
  intros Hval Hver Hsize Heq.
  assert (∀ fm1, updatePreVotesPreCommits h fm1 = (fm1, false)) as Hskip.
  { intros fm1. unfold updatePreVotesPreCommits. by rewrite decide_True. }
  exists (acceptHeader h fm). rewrite addBlockHeader_unfold, Hval, Hver.
  unfold acceptHeader. rewrite Hskip. simpl.
  assert (∀ fm1, headers (updatePreVotedAndFinalizedHeight fm1).1 = headers fm1
                 ∧ state (updatePreVotedAndFinalizedHeight fm1).1 = state fm1
                 ∧ preVotes (updatePreVotedAndFinalizedHeight fm1).1 = preVotes fm1
                 ∧ preCommits (updatePreVotedAndFinalizedHeight fm1).1 = preCommits fm1
                 ∧ activeDelegates (updatePreVotedAndFinalizedHeight fm1).1
                   = activeDelegates fm1) as Hupd.
  { intros fm1. unfold updatePreVotedAndFinalizedHeight. by case_decide. }
  destruct (Hupd (set_headers (HeadersList.add h (headers fm)) fm))
    as (Hh & Hs & Hpv & Hpc & Hd).
  unfold maxHeaders. rewrite Hh, Hs, Hpv, Hpc, Hd. simpl.
  split_and!; try done.
  unfold HeadersList.last, HeadersList.add. case_decide as Hfull; simpl.
  - destruct (HeadersList.items (headers fm)) as [|h0 l] eqn:Hitems.
    + simpl in Hfull. lia.
    + simpl. rewrite drop_0. apply last_snoc.
  - apply last_snoc.
Qed.

(** ** The finalized height under [addBlockHeader] *)

Section finality_step.
Variables (n : nat) (t F0 : Z).
Variables (pc pc' : gmap Z Z) (F lo : Z).
Hypothesis n_pos : (0 < n)%nat.
Hypothesis pc_pos : countsPositive pc.
(** [pc'] is [pc] after the pre-commit loop of one header: tallies only
    grow, and a height that is new starts at one vote and is at least
    the lower end [lo] of the loop. *)
Hypothesis grow : ∀ j c, pc !! j = Some c → ∃ c', pc' !! j = Some c' ∧ c ≤ c'.
Hypothesis fresh :
  ∀ j c', pc' !! j = Some c' → pc !! j = None → c' = 1 ∧ lo ≤ j.
Hypothesis lo_above : F0 < lo.
Hypothesis inv : finalityInv n t F0 pc F.

Lemma nextFinalized_monotone : F ≤ nextFinalized t pc' F.
Proof.
  unfold nextFinalized. destruct (Tally.highest pc' t) as [m|] eqn:Hm; [|lia].
  apply highest_Some in Hm as [(cm & Hcm & Htm) Hmax].
  destruct inv as [(j & c & Hj & Hc & HF)|[[Hsize Habove]|[-> Habove]]].
  - destruct (grow _ _ Hj) as (c' & Hj' & Hc').
    specialize (Hmax j c' Hj'). lia.
  - destruct (pc !! m) as [c|] eqn:Hpcm.
    { specialize (Habove m). rewrite Hpcm in Habove.
      specialize (Habove (mk_is_Some _ _ eq_refl)). lia. }
    destruct (fresh _ _ Hcm Hpcm) as [-> _].
    assert (∃ j, is_Some (pc !! j)) as [j [c Hj]].
    { destruct (map_choose pc) as (j & c & Hj); [|by eauto].
      intros ->. rewrite map_size_empty in Hsize. lia. }
    destruct (grow _ _ Hj) as (c' & Hj' & Hc').
    pose proof (pc_pos _ _ Hj).
    specialize (Hmax j c' Hj'). specialize (Habove j (mk_is_Some _ _ Hj)). lia.
  - destruct (pc !! m) as [c|] eqn:Hpcm.
    { specialize (Habove m). rewrite Hpcm in Habove.
      specialize (Habove (mk_is_Some _ _ eq_refl)). lia. }
    destruct (fresh _ _ Hcm Hpcm) as [_ ?]. lia.
Qed.

Lemma finalityInv_step :
  finalityInv n t F0 (Tally.trim n pc') (nextFinalized t pc' F).
Proof.
  unfold nextFinalized. destruct (Tally.highest pc' t) as [m|] eqn:Hm.
  - (* a height reaches the threshold: it is the new finalized height *)
    apply highest_Some in Hm as [(cm & Hcm & Htm) _].
    destruct (Tally.trim n pc' !! m) as [c|] eqn:Hkept.
    + left. exists m, c. apply trim_lookup_Some in Hkept as Heq.
      split; [done|]. split; [congruence|lia].
    + right. left.
      split; [by eapply (trim_dropped n pc' m m); eauto|].
      intros j Hj. by eapply (trim_dropped n pc' m j); eauto.
  - (* no height reaches the threshold: the finalized height stays *)
    destruct inv as [(j & c & Hj & Hc & HF)|[[Hsize Habove]|[-> Habove]]].
    + destruct (grow _ _ Hj) as (c' & Hj' & Hc').
      pose proof (highest_None _ _ _ _ Hm Hj'). lia.
    + right. left.
      assert (base.size pc ≤ base.size pc')%nat as Hle.
      { rewrite <- !size_dom. apply subseteq_size. intros j Hj.
        apply elem_of_dom in Hj as [c Hj]. apply elem_of_dom.
        destruct (grow _ _ Hj) as (c' & Hj' & _). eauto. }
      assert (base.size (Tally.trim n pc') = n) as Hn
        by (rewrite trim_size; lia).
      split; [done|]. intros j Hj.
      destruct (decide (F < j)) as [|Hge]; [done|]. exfalso.
      assert (dom pc ∪ {[j]} ⊆ dom (Tally.trim n pc')) as Hsub.
      { intros k Hk. apply elem_of_dom.
        apply elem_of_union in Hk as [Hk|Hk].
        - apply elem_of_dom in Hk as [c Hk].
          destruct (grow _ _ Hk) as (c' & Hk' & _).
          specialize (Habove k (mk_is_Some _ _ Hk)).
          rewrite (trim_upward n pc' j k); [eauto|done|eauto|lia].
        - apply elem_of_singleton in Hk as ->. done. }
      apply subseteq_size in Hsub.
      rewrite size_union, size_singleton, !size_dom in Hsub; [lia|].
      intros k Hk Hk'. apply elem_of_singleton in Hk' as ->.
      apply elem_of_dom in Hk. specialize (Habove j Hk). lia.
    + right. right. split; [done|]. intros j [c Hj].
      apply trim_lookup_Some in Hj.
      destruct (pc !! j) as [c0|] eqn:Hpcj.
      * apply Habove. by rewrite Hpcj.
      * destruct (fresh _ _ Hj Hpcj). lia.
Qed.

Lemma countsPositive_step : countsPositive (Tally.trim n pc').
Proof.
  intros j c Hj. apply trim_lookup_Some in Hj.
  destruct (pc !! j) as [c0|] eqn:Hpcj.
  - destruct (grow _ _ Hpcj) as (c' & Hj' & Hc').
    pose proof (pc_pos _ _ Hpcj). rewrite Hj in Hj'. injection Hj' as <-. lia.
  - destruct (fresh _ _ Hj Hpcj). lia.
Qed.

End finality_step.

(** What the vote accounting of one header does to the pre-commit tally
    and to the delegates' states. *)
Lemma accounting_grows (fm : FinalityManager) (h : BlockHeader) :
  let fm' := (updatePreVotesPreCommits h fm).1 in
  let s := default initialDelegateState (state fm !! delegatePublicKey h) in
  activeDelegates fm' = activeDelegates fm
  ∧ headers fm' = headers fm
  ∧ finalizedHeight fm' = finalizedHeight fm
  ∧ chainMaxHeightPrevoted fm' = chainMaxHeightPrevoted fm
  ∧ (∀ j c, preCommits fm !! j = Some c →
            ∃ c', preCommits fm' !! j = Some c' ∧ c ≤ c')
  ∧ (∀ j c', preCommits fm' !! j = Some c' → preCommits fm !! j = None →
             c' = 1
             ∧ Z.max (delegateMinHeightActive h) (maxPreCommitHeight s + 1) ≤ j)
  ∧ (delegatesNonneg (state fm) → delegatesNonneg (state fm')).
Proof.
  intros fm' s. subst fm'.
  destruct (decide (height h ≤ maxHeightPreviouslyForged h)) as [Heq|Hlt].
  - unfold updatePreVotesPreCommits. rewrite decide_True by done. simpl.
    split_and!; try done; [|congruence].
    intros j c Hj. exists c. split; [done|lia].
  - rewrite updatePreVotesPreCommits_unfold by lia. fold s. simpl.
    destruct (preCommit_loop (preVotes fm) (preVoteThreshold fm) (preCommits fm) s
                (minPreCommitHeight fm h s) (height h - 1))
      as (Hpc & _ & _ & Hlast).
    set (r := foldl _ _ _) in *.
    split_and!; try done.
    + intros j c Hj. rewrite Hpc. case_decide.
      * rewrite Hj. simpl. eexists. split; [done|lia].
      * eauto with lia.
    + intros j c' Hj' Hj. rewrite Hpc, Hj in Hj'. case_decide as Hin; [|done].
      simpl in Hj'. injection Hj' as <-. split; [done|].
      unfold minPreCommitHeight in Hin. lia.
    + intros Hnn k s' Hk. apply lookup_insert_Some in Hk as [[_ <-]|[_ Hk]];
        [|by eapply Hnn].
      simpl. assert (0 ≤ maxPreCommitHeight s) as Hs.
      { subst s. destruct (state fm !! delegatePublicKey h) as [s0|] eqn:Hs0;
          simpl; [by eapply Hnn|done]. }
      unfold minPreCommitHeight in Hlast. lia.
Qed.

Lemma updatePreVotedAndFinalizedHeight_nonempty (fm : FinalityManager) :
  HeadersList.length (headers fm) ≠ 0 →
  (updatePreVotedAndFinalizedHeight fm).1 =
  set_heights
    (match Tally.highest (preVotes fm) (preVoteThreshold fm) with
     | Some j => j
     | None => chainMaxHeightPrevoted fm
     end)
    (nextFinalized (preCommitThreshold fm) (preCommits fm) (finalizedHeight fm))
    (if decide (finalizedHeight fm
                = nextFinalized (preCommitThreshold fm) (preCommits fm)
                    (finalizedHeight fm))
     then emitted fm
     else emitted fm ++ [nextFinalized (preCommitThreshold fm) (preCommits fm)
                           (finalizedHeight fm)])
    fm.
Proof.
  intros Hne. unfold updatePreVotedAndFinalizedHeight.
  by rewrite decide_False by done.
Qed.

Lemma add_size h (l : HeadersList.t) :
  HeadersList.size (HeadersList.add h l) = HeadersList.size l.
Proof. unfold HeadersList.add. by case_decide. Qed.

Lemma add_nonempty h (l : HeadersList.t) :
  (0 < HeadersList.size l)%nat →
  HeadersList.length (HeadersList.add h l) ≠ 0.
Proof.
  intros Hsize. unfold HeadersList.length, HeadersList.add.
  case_decide as Hfull; simpl; rewrite ?length_drop, length_app in *;
    simpl in *; lia.
Qed.






(** ** The heights that carry votes *)

(** A height that carries a vote after the accounting of [h] carried one
    before, or is at most [height h] (below it, for a pre-commit). *)
Lemma accounting_keys (fm : FinalityManager) (h : BlockHeader) (j : Z) :
  let fm' := (updatePreVotesPreCommits h fm).1 in
  (is_Some (preVotes fm' !! j) → is_Some (preVotes fm !! j) ∨ j ≤ height h)
  ∧ (is_Some (preCommits fm' !! j) →
     is_Some (preCommits fm !! j) ∨ j < height h).
Proof.
  intros fm'. subst fm'.
  destruct (decide (height h ≤ maxHeightPreviouslyForged h)) as [Heq|Hlt].
  - unfold updatePreVotesPreCommits. rewrite decide_True by done. simpl. auto.
  - rewrite updatePreVotesPreCommits_unfold by lia. simpl.
    set (s := default initialDelegateState (state fm !! delegatePublicKey h)).
    destruct (preCommit_loop (preVotes fm) (preVoteThreshold fm) (preCommits fm) s
                (minPreCommitHeight fm h s) (height h - 1)) as (Hpc & _).
    rewrite preVote_loop, Hpc.
    split; intros Hj; case_decide; auto; right; lia.
Qed.

Lemma replay_headers (hs : list BlockHeader) (fm : FinalityManager) :
  headers (replay hs fm) = headers fm
  ∧ activeDelegates (replay hs fm) = activeDelegates fm
  ∧ finalizedHeight (replay hs fm) = finalizedHeight fm
  ∧ chainMaxHeightPrevoted (replay hs fm) = chainMaxHeightPrevoted fm.
Proof.
  revert fm. induction hs as [|h hs IH]; intros fm; [done|].
  simpl. destruct (IH (updatePreVotesPreCommits h fm).1) as (-> & -> & -> & ->).
  destruct (accounting_grows fm h) as (? & ? & ? & ? & _). done.
Qed.

Lemma replay_keys (B : Z) (hs : list BlockHeader) (fm : FinalityManager) :
  (∀ x, x ∈ hs → height x ≤ B) →
  (∀ j, is_Some (preVotes fm !! j) → j ≤ B) →
  (∀ j, is_Some (preCommits fm !! j) → j ≤ B) →
  (∀ j, is_Some (preVotes (replay hs fm) !! j) → j ≤ B)
  ∧ (∀ j, is_Some (preCommits (replay hs fm) !! j) → j ≤ B).
Proof.
  revert fm. induction hs as [|h hs IH]; intros fm Hhs Hpv Hpc; [done|].
  simpl. assert (height h ≤ B) by (apply Hhs, elem_of_cons; by left).
  apply IH.
  - intros x Hx. apply Hhs, elem_of_cons. by right.
  - intros j Hj. apply (accounting_keys fm h j) in Hj as [Hj|Hj];
      [by apply Hpv|lia].
  - intros j Hj. apply (accounting_keys fm h j) in Hj as [Hj|Hj];
      [by apply Hpc|lia].
Qed.

Lemma cleanup_lookup_Some (n : Z) (o : gmap Z Z) (j : Z) :
  is_Some (Tally.cleanup n o !! j) → is_Some (o !! j).
Proof.
  unfold Tally.cleanup. intros [c Hj].
  apply lookup_foldr_delete_Some in Hj as [_ Hj]. eauto.
Qed.

(** *** Ordered header lists *)

Section ordered_headers.
Let below (a b : BlockHeader) : Prop := height a < height b.

Lemma sorted_below_last (l : list BlockHeader) (t x : BlockHeader) :
  StronglySorted below l → last l = Some t → x ∈ l →
  height x ≤ height t.
Proof.
  intros Hs Hlast Hx. apply last_Some in Hlast as [l' ->].
  apply StronglySorted_app in Hs as (Hlt & _ & _).
  apply elem_of_app in Hx as [Hx|Hx].
  - specialize (Hlt x t Hx). unfold below in Hlt.
    assert (t ∈ [t]) as Ht by (apply elem_of_cons; by left).
    specialize (Hlt Ht). lia.
  - apply list_elem_of_singleton in Hx as ->. lia.
Qed.

Lemma sorted_snoc (l : list BlockHeader) (h : BlockHeader) :
  StronglySorted below l →
  match last l with Some t => height t < height h | None => True end →
  StronglySorted below (l ++ [h]).
Proof.
  intros Hs Hlast. apply StronglySorted_app_2; [|done|].
  - intros x1 x2 Hx1 Hx2. apply list_elem_of_singleton in Hx2 as ->.
    destruct (last l) as [t|] eqn:Ht.
    + pose proof (sorted_below_last l t x1 Hs Ht Hx1). unfold below. lia.
    + apply last_None in Ht as ->. by apply elem_of_nil in Hx1.
  - repeat constructor.
Qed.

Lemma sorted_drop (k : nat) (l : list BlockHeader) :
  StronglySorted below l → StronglySorted below (drop k l).
Proof.
  intros Hs. rewrite <- (take_drop k l) in Hs.
  by apply StronglySorted_app_1_r in Hs.
Qed.

Lemma sorted_filter (P : BlockHeader → Prop) `{!∀ x, Decision (P x)}
    (l : list BlockHeader) :
  StronglySorted below l → StronglySorted below (filter P l).
Proof.
  induction 1 as [|x l Hs IH Hall]; [constructor|].
  rewrite filter_cons. case_decide; [|done].
  constructor; [done|]. apply Forall_forall. intros y Hy.
  apply list_elem_of_filter in Hy as [_ Hy].
  rewrite Forall_forall in Hall. by apply Hall.
Qed.

Lemma add_ordered (h : BlockHeader) (l : HeadersList.t) :
  headersOrdered l → HeadersList.appendable h l → 1 ≤ height h →
  headersOrdered (HeadersList.add h l).
Proof.
  intros [Hs Hv] Happ Hh. unfold headersOrdered, HeadersList.add.
  assert (StronglySorted below (HeadersList.items l ++ [h])) as Hs'
    by by apply sorted_snoc.
  assert (Forall (λ x, 1 ≤ height x) (HeadersList.items l ++ [h])) as Hv'
    by (apply Forall_app; split; [done|by constructor]).
  case_decide; simpl; [|done].
  split; [by apply sorted_drop|by apply Forall_drop].
Qed.

Lemma add_last (h : BlockHeader) (l : HeadersList.t) :
  (0 < HeadersList.size l)%nat →
  HeadersList.last (HeadersList.add h l) = Some h.
Proof.
  intros Hsize. unfold HeadersList.last, HeadersList.add.
  case_decide as Hfull; simpl; [|apply last_snoc].
  destruct (HeadersList.items l) as [|h0 items]; simpl in *; [lia|].
  rewrite drop_0. apply last_snoc.
Qed.

Lemma remove_ordered (a : Z) (l : HeadersList.t) :
  headersOrdered l → headersOrdered (HeadersList.remove a l).
Proof.
  intros [Hs Hv]. unfold headersOrdered, HeadersList.remove. simpl. split.
  - by apply sorted_filter.
  - apply Forall_forall. intros x Hx. apply list_elem_of_filter in Hx as [_ Hx].
    rewrite Forall_forall in Hv. by apply Hv.
Qed.

End ordered_headers.

(** ** The pre-voted height never exceeds the stored headers *)

Lemma afterAdd_valid_cases h fm :
  afterAdd fm h = fm
  ∨ (afterAdd fm h = acceptHeader h fm ∧ 1 ≤ height h).
Proof.
  destruct (decide (1 ≤ height h ∧ 0 ≤ maxHeightPreviouslyForged h))
    as [[Hh _]|Hinvalid].
  - destruct (afterAdd_cases h fm) as [Heq|Heq]; [by left|by right].
  - left. unfold afterAdd. rewrite addBlockHeader_unfold.
    unfold validateBlockHeader. by rewrite decide_False by done.
Qed.

Lemma maxHeight_bounds (fm : FinalityManager) (x : BlockHeader) :
  headersOrdered (headers fm) →
  x ∈ HeadersList.items (headers fm) →
  height x ≤ maxHeight fm ∧ 1 ≤ maxHeight fm.
Proof.
  intros [Hs Hv] Hx. unfold maxHeight, HeadersList.last.
  destruct (last (HeadersList.items (headers fm))) as [t|] eqn:Ht.
  - split; [by eapply sorted_below_last|].
    rewrite Forall_forall in Hv. apply Hv. by eapply last_Some_elem_of.
  - apply last_None in Ht. rewrite Ht in Hx. by apply elem_of_nil in Hx.
Qed.

Lemma highest_key (o : gmap Z Z) (t j : Z) :
  Tally.highest o t = Some j → is_Some (o !! j).
Proof. intros Hj. apply highest_Some in Hj as [(c & Hc & _) _]. eauto. Qed.

Lemma acceptHeader_prevotedInv (fm : FinalityManager) (h : BlockHeader) :
  prevotedInv fm →
  HeadersList.appendable h (headers fm) →
  1 ≤ height h →
  prevotedInv (acceptHeader h fm).
Proof.
  intros (HD & Hsize & Hord & Hkeys & Hmax) Happ Hh.
  assert (maxHeight fm ≤ height h) as Hold.
  { unfold maxHeight. unfold HeadersList.appendable in Happ.
    destruct (HeadersList.last (headers fm)); lia. }
  unfold acceptHeader.
  set (fm1 := set_headers (HeadersList.add h (headers fm)) fm).
  destruct (accounting_grows fm1 h) as (HD2 & Hh2 & _ & Hc2 & _).
  pose proof (λ j, proj1 (accounting_keys fm1 h j)) as Hkeys2.
  set (fm2 := (updatePreVotesPreCommits h fm1).1) in *.
  assert (HeadersList.length (headers fm2) ≠ 0) as Hne.
  { rewrite Hh2. by apply add_nonempty. }
  rewrite (updatePreVotedAndFinalizedHeight_nonempty fm2 Hne).
  unfold prevotedInv, _cleanup, maxHeight. simpl.
  rewrite Hh2. simpl. rewrite add_size, add_last by done.
  assert (∀ j, is_Some (preVotes fm2 !! j) → j ≤ height h) as Hkeys3.
  { intros j Hj. apply Hkeys2 in Hj as [Hj|Hj]; [|done].
    specialize (Hkeys j Hj). lia. }
  split_and!; try done.
  - by rewrite HD2.
  - by apply add_ordered.
  - intros j Hj. apply cleanup_lookup_Some in Hj. by apply Hkeys3.
  - destruct (Tally.highest (preVotes fm2) (preVoteThreshold fm2)) as [j|] eqn:Hj.
    + eapply Hkeys3, highest_key. done.
    + rewrite Hc2. simpl. lia.
Qed.

Lemma removeBlockHeaders_prevotedInv (fm : FinalityManager) (a : Z) :
  prevotedInv fm → prevotedInv (removeBlockHeaders a fm).
Proof.
  intros (HD & Hsize & Hord & _ & _).
  unfold removeBlockHeaders, recompute.
  set (fm1 := resetVotes (set_headers (HeadersList.remove a (headers fm)) fm)).
  assert (headersOrdered (headers fm1)) as Hord1 by by apply remove_ordered.
  assert (0 < activeDelegates fm1) as HD1 by done.
  assert (0 < HeadersList.size (headers fm1))%nat as Hsize1 by done.
  assert (chainMaxHeightPrevoted fm1 = 0) as Hc1 by done.
  assert (preVotes fm1 = ∅ ∧ preCommits fm1 = ∅) as [Hpv1 Hpc1] by done.
  clearbody fm1.
  destruct (replay_headers (HeadersList.items (headers fm1)) fm1)
    as (Hh2 & HD2 & _ & Hc2).
  destruct (replay_keys (maxHeight fm1) (HeadersList.items (headers fm1)) fm1)
    as [Hkeys2 _].
  { intros x Hx. by apply maxHeight_bounds. }
  { intros j [c Hj]. by rewrite Hpv1, lookup_empty in Hj. }
  { intros j [c Hj]. by rewrite Hpc1, lookup_empty in Hj. }
  set (fm2 := replay _ fm1) in *. clearbody fm2.
  assert (maxHeight fm2 = maxHeight fm1) as Hmax2
    by (unfold maxHeight; by rewrite Hh2).
  assert (∀ fm3, headers fm3 = headers fm2 →
                 activeDelegates fm3 = activeDelegates fm2 →
                 preVotes fm3 = preVotes fm2 →
                 chainMaxHeightPrevoted fm3 ≤ maxHeight fm1 →
                 prevotedInv (_cleanup fm3)) as Hfinish.
  { intros fm3 Hh3 HD3 Hpv3 Hc3. unfold prevotedInv, _cleanup, maxHeight. simpl.
    rewrite Hh3, HD3, Hpv3, Hh2, HD2. split_and!; try done.
    intros j Hj. apply cleanup_lookup_Some in Hj. by apply Hkeys2. }
  unfold updatePreVotedAndFinalizedHeight. case_decide as Hlen; simpl.
  - (* no header is left *)
    apply Hfinish; try done. rewrite Hc2, Hc1.
    unfold HeadersList.length in Hlen. rewrite Hh2 in Hlen.
    unfold maxHeight, HeadersList.last.
    destruct (HeadersList.items (headers fm1)); [done|simpl in Hlen; lia].
  - apply Hfinish; try done. simpl.
    assert (∃ x, x ∈ HeadersList.items (headers fm1)) as [x Hx].
    { unfold HeadersList.length in Hlen. rewrite Hh2 in Hlen.
      destruct (HeadersList.items (headers fm1)) as [|x l];
        [done|]. exists x. apply elem_of_cons. by left. }
    destruct (Tally.highest (preVotes fm2) (preVoteThreshold fm2)) as [j|] eqn:Hj.
    + eapply Hkeys2, highest_key. done.
    + pose proof (maxHeight_bounds fm1 x Hord1 Hx) as [_ Hpos].
      rewrite Hc2, Hc1. lia.
Qed.

Lemma new_prevotedInv (F0 D : Z) (fm : FinalityManager) :
  new F0 D = Some fm → prevotedInv fm.
Proof.
  unfold new. case_decide as HD; [|done]. intros [= <-].
  unfold prevotedInv, headersOrdered, maxHeight. simpl.
  split_and!; try done; try lia; try constructor.
  intros j [c Hj]. by rewrite lookup_empty in Hj.
Qed.

Lemma reachable_prevotedInv (fm : FinalityManager) :
  reachable fm → prevotedInv fm.
Proof.
  induction 1 as [F0 D fm Hnew|fm h _ IH Happ|fm a _ IH].
  - by eapply new_prevotedInv.
  - destruct (afterAdd_valid_cases h fm) as [->|[-> Hh]]; [done|].
    by apply acceptHeader_prevotedInv.
  - by apply removeBlockHeaders_prevotedInv.
Qed.

(** C7: in every manager reachable by calls of [addBlockHeader] and
    [removeBlockHeaders], [chainMaxHeightPrevoted] is at most the maximum
    height among the stored headers, which is 0 when none is stored. *)
Theorem chainMaxHeightPrevoted_below_maxHeight (fm : FinalityManager) :
  reachable fm → chainMaxHeightPrevoted fm ≤ maxHeight fm.
Proof. intros Hr. by apply reachable_prevotedInv in Hr as (_ & _ & _ & _ & ?). Qed.

(** ** [removeBlockHeaders] and [recompute] *)

Lemma updatePreVotedAndFinalizedHeight_votes (fm : FinalityManager) :
  preVotes (updatePreVotedAndFinalizedHeight fm).1 = preVotes fm
  ∧ preCommits (updatePreVotedAndFinalizedHeight fm).1 = preCommits fm
  ∧ headers (updatePreVotedAndFinalizedHeight fm).1 = headers fm.
Proof. unfold updatePreVotedAndFinalizedHeight. by case_decide. Qed.

Lemma cleanup_headers (fm : FinalityManager) :
  headers (_cleanup fm) = headers fm.
Proof. done. Qed.

Lemma cleanup_preVotes (fm : FinalityManager) :
  preVotes (_cleanup fm) = Tally.cleanup (maxHeaders fm) (preVotes fm).
Proof. done. Qed.

Lemma cleanup_preCommits (fm : FinalityManager) :
  preCommits (_cleanup fm) = Tally.cleanup (maxHeaders fm) (preCommits fm).
Proof. done. Qed.

(** C6: [removeBlockHeaders({aboveHeight})] removes exactly the headers
    whose height is strictly greater than [aboveHeight]; zeroes state,
    preVotes, preCommits and chainMaxHeightPrevoted while leaving
    finalizedHeight as it is; replays [updatePreVotesPreCommits] over the
    remaining headers, which are in ascending height order; and afterwards
    neither preVotes nor preCommits has an entry for a height greater than
    [aboveHeight].  The finalized height that comes out is the highest
    height whose replayed pre-commits reach the threshold, and the previous
    one when there is none. *)
Theorem removeBlockHeaders_recomputes (fm : FinalityManager) (aboveHeight : Z) :
  StronglySorted (λ x y, height x < height y) (HeadersList.items (headers fm)) →
  let kept := HeadersList.remove aboveHeight (headers fm) in
  let zeroed := resetVotes (set_headers kept fm) in
  let fm' := removeBlockHeaders aboveHeight fm in
  (∀ x, x ∈ HeadersList.items (headers fm')
        ↔ x ∈ HeadersList.items (headers fm) ∧ height x ≤ aboveHeight)
  ∧ (state zeroed = ∅ ∧ preVotes zeroed = ∅ ∧ preCommits zeroed = ∅
     ∧ chainMaxHeightPrevoted zeroed = 0
     ∧ finalizedHeight zeroed = finalizedHeight fm)
  ∧ StronglySorted (λ x y, height x < height y) (HeadersList.items kept)
  ∧ fm' = _cleanup
            (updatePreVotedAndFinalizedHeight
               (foldl (λ acc x, (updatePreVotesPreCommits x acc).1) zeroed
                      (HeadersList.items kept))).1
  ∧ (∀ j, aboveHeight < j →
          preVotes fm' !! j = None ∧ preCommits fm' !! j = None)
  ∧ finalizedHeight fm'
    = (if decide (HeadersList.items kept = []) then finalizedHeight fm
       else nextFinalized (preCommitThreshold fm)
              (preCommits (replay (HeadersList.items kept) zeroed))
              (finalizedHeight fm)).
Proof.
  intros Hsorted kept zeroed fm'.
  assert (∀ x, x ∈ HeadersList.items kept
               ↔ x ∈ HeadersList.items (headers fm) ∧ height x ≤ aboveHeight)
    as Hkept.
  { intros x. unfold kept, HeadersList.remove. simpl.
    rewrite list_elem_of_filter. tauto. }
  destruct (replay_headers (HeadersList.items kept) zeroed) as (Hh & _).
  destruct (replay_keys aboveHeight (HeadersList.items kept) zeroed)
    as [Hpv Hpc].
  { intros x Hx. by apply Hkept in Hx as [_ ?]. }
  { intros j [c Hj]. unfold zeroed in Hj. simpl in Hj.
    by rewrite lookup_empty in Hj. }
  { intros j [c Hj]. unfold zeroed in Hj. simpl in Hj.
    by rewrite lookup_empty in Hj. }
  set (replayed := replay (HeadersList.items kept) zeroed) in *.
  destruct (updatePreVotedAndFinalizedHeight_votes replayed)
    as (Hpv' & Hpc' & Hh').
  assert (fm' = _cleanup (updatePreVotedAndFinalizedHeight replayed).1)
    as Hfm' by done.
  split_and!; try done.
  - intros x. rewrite Hfm', cleanup_headers, Hh', Hh. apply Hkept.
  - by apply sorted_filter.
  - intros j Hj. rewrite Hfm', cleanup_preVotes, cleanup_preCommits, Hpv', Hpc'.
    split; apply eq_None_not_Some; intros Hsome;
      apply cleanup_lookup_Some in Hsome.
    + apply Hpv in Hsome. lia.
    + apply Hpc in Hsome. lia.
  - rewrite Hfm'. fold replayed.
    destruct (replay_headers (HeadersList.items kept) zeroed)
      as (_ & HD & HF & _). fold replayed in HD, HF.
    unfold _cleanup, updatePreVotedAndFinalizedHeight, HeadersList.length,
      preCommitThreshold, nextFinalized.
    rewrite Hh, HD, HF. simpl.
    by destruct (filter _ _) as [|x l] eqn:Hitems.
Qed.

(** ** The P2P coordinator *)

Section get_peers_facts.
Import P2P.
Variable getByteSize : list ProtocolPeerInfo → Z.

(** Every entry of the response comes from a sampled peer that
    advertises its address. *)
Lemma getPeers_only_advertised config selectedPeers entry :
  entry ∈ peers (_handleGetPeersRequest getByteSize config selectedPeers) →
  ∃ peer, peer ∈ selectedPeers
          ∧ advertised peer = true
          ∧ entry = sanitize peer.
Proof.
  unfold _handleGetPeersRequest. simpl. intros Hentry.
  assert (entry ∈ sanitize <$> List.filter advertised selectedPeers) as Hin.
  { case_decide; [done|]. unfold Tally.slice0 in Hentry.
    by eapply subseteq_take. }
  apply list_elem_of_fmap in Hin as (peer & -> & Hpeer).
  apply list_elem_of_In, filter_In in Hpeer as [Hpeer Hadv].
  apply list_elem_of_In in Hpeer. eauto.
Qed.

(** When the sanitized list is not below the configured payload, the
    response is cut at a length derived from the default payload. *)
Lemma getPeers_truncated config selectedPeers :
  let sanitized := sanitize <$> List.filter advertised selectedPeers in
  ¬ getByteSize sanitized < orDefault (wsMaxPayload config) DEFAULT_WS_MAX_PAYLOAD →
  peers (_handleGetPeersRequest getByteSize config selectedPeers)
  = Tally.slice0
      (DEFAULT_WS_MAX_PAYLOAD
       / orDefault (maxPeerInfoSize config) DEFAULT_MAX_PEER_INFO_SIZE - 1)
      sanitized.
Proof.
  intros sanitized Hlarge. unfold _handleGetPeersRequest. simpl.
  by rewrite decide_False.
Qed.
End get_peers_facts.


(** C8: with wsMaxPayload configured as 1000 bytes and maxPeerInfoSize as
    100 bytes, thirty sampled peers that serialize to 1171 bytes are too
    large for the payload; the specification prescribes the first
    floor(1000 / 100) - 1 = 9 entries, but the handler cuts at
    floor(DEFAULT_WS_MAX_PAYLOAD / 100) - 1 and returns all thirty. *)
Theorem getPeers_ignores_configured_payload :
  let sanitized :=
    P2P.sanitize <$> List.filter P2P.advertised P2PExamples.thirtyPeers in
  let response :=
    P2P._handleGetPeersRequest P2PExamples.jsonByteSize
      P2PExamples.smallPayload P2PExamples.thirtyPeers in
  P2PExamples.jsonByteSize sanitized = 1171
  ∧ P2P.orDefault (P2P.wsMaxPayload P2PExamples.smallPayload)
      P2P.DEFAULT_WS_MAX_PAYLOAD = 1000
  ∧ length (P2P.specTruncated P2PExamples.smallPayload sanitized) = 9%nat
  ∧ length (P2P.peers response) = 30%nat
  ∧ P2P.peers response ≠ P2P.specTruncated P2PExamples.smallPayload sanitized.
Proof.
  intros sanitized response.
  assert (length (P2P.specTruncated P2PExamples.smallPayload sanitized) = 9%nat)
    as Hspec by (vm_compute; reflexivity).
  assert (length (P2P.peers response) = 30%nat)
    as Hcode by (vm_compute; reflexivity).
  split_and!;
    [vm_compute; reflexivity|vm_compute; reflexivity|exact Hspec|exact Hcode|].
  intros Heq. rewrite Heq, Hspec in Hcode. discriminate.
Qed.



(** C10: [start] throws whenever the node is already active and [stop]
    throws whenever it is not active; the failed call leaves the activity
    flag and all the rest of the node as they were. *)
Theorem start_stop_guarded (minTriedPeerCount : nat) (node : P2P.t) :
  (P2P._isActive node = true →
   P2P.start minTriedPeerCount node = (node, inl P2P.NodeAlreadyActive))
  ∧ (P2P._isActive node = false →
     P2P.stop node = (node, inl P2P.NodeNotActive)).
Proof.
  split; intros Hactive.
  - unfold P2P.start, P2P.self, mbind, P2P.P_bind. by rewrite Hactive.
  - unfold P2P.stop, P2P.self, mbind, P2P.P_bind. by rewrite Hactive.
Qed.

(** The two tests 'should reject at multiple start attempt' and 'should
    reject at multiple stop attempt', on a node that has just been
    constructed. *)
Example second_start_rejected :
  ∃ started,
    P2P.start 1 (P2P.fresh ∅) = (started, inr ())
    ∧ P2P._isActive started = true
    ∧ P2P.start 1 started = (started, inl P2P.NodeAlreadyActive).
Proof. eexists. split_and!; reflexivity. Qed.

Example second_stop_rejected :
  ∃ started stopped,
    P2P.start 1 (P2P.fresh ∅) = (started, inr ())
    ∧ P2P.stop started = (stopped, inr ())
    ∧ P2P._isActive stopped = false
    ∧ P2P.stop stopped = (stopped, inl P2P.NodeNotActive).
Proof. do 2 eexists. split_and!; reflexivity. Qed.

(** ** The theorems at concrete inputs *)

Example new_manager_of_one : new 0 1 = Some manager_of_one.
Proof. reflexivity. Qed.

Example finalizes_height_1 :
  finalizedHeight (addAll manager_of_one [header_1_by_A; header_2_by_A]) = 1.
Proof. reflexivity. Qed.


Lemma addBlockHeader_error_atomic_witness :
  let fm := addAll manager_of_one [header_1_by_A; header_2_by_A] in
  addBlockHeader header_1_by_A fm = (fm, inl BFTInvalidAttributeError).
Proof.
  intros fm.
  assert (∃ fm', addBlockHeader header_1_by_A fm
                 = (fm', inl BFTInvalidAttributeError)) as [fm' Hcall].
  { eexists. vm_compute. reflexivity. }
  rewrite Hcall.
  by rewrite (addBlockHeader_error_atomic fm fm' header_1_by_A _ Hcall).
Defined.

Lemma equivocating_header_witness :
  ∃ fm',
    addBlockHeader equivocating_header manager_of_one = (fm', inr ())
    ∧ HeadersList.last (headers fm') = Some equivocating_header
    ∧ state fm' = ∅ ∧ preVotes fm' = ∅ ∧ preCommits fm' = ∅.
Proof.
  destruct (equivocating_header_appended_without_votes
              manager_of_one equivocating_header)
    as (fm' & Hcall & _ & Hlast & _ & Hstate & Hpv & Hpc).
  - reflexivity.
  - reflexivity.
  - simpl. lia.
  - simpl. lia.
  - exists fm'. by rewrite Hstate, Hpv, Hpc.
Defined.

Lemma accounting_witness :
  let fm := addAll manager_of_one [header_1_by_A] in
  maxHeightPreviouslyForged header_2_by_A < height header_2_by_A
  ∧ preCommits (updatePreVotesPreCommits header_2_by_A fm).1 !! 1 = Some 1
  ∧ preVotes (updatePreVotesPreCommits header_2_by_A fm).1 !! 2 = Some 1.
Proof.
  intros fm.
  assert (maxHeightPreviouslyForged header_2_by_A < height header_2_by_A)
    as Hlt by (simpl; lia).
  destruct (updatePreVotesPreCommits_accounting fm header_2_by_A Hlt)
    as (Hcommitted & _ & Hvoted & _).
  split; [exact Hlt|]. split.
  - rewrite Hcommitted; [reflexivity|].
    split; [vm_compute; split; discriminate|].
    exists 1. split; [reflexivity|]. vm_compute. discriminate.
  - rewrite Hvoted; [reflexivity|]. vm_compute. split; discriminate.
Defined.

Lemma removeBlockHeaders_witness :
  let fm := addAll manager_of_one [header_1_by_A; header_2_by_A] in
  HeadersList.items (headers (removeBlockHeaders 1 fm)) = [header_1_by_A]
  ∧ preVotes (removeBlockHeaders 1 fm) !! 2 = None
  ∧ preCommits (removeBlockHeaders 1 fm) !! 2 = None.
Proof.
  intros fm.
  assert (StronglySorted (λ x y, height x < height y)
            (HeadersList.items (headers fm))) as Hsorted.
  { vm_compute. repeat constructor. }
  destruct (removeBlockHeaders_recomputes fm 1 Hsorted)
    as (_ & _ & _ & _ & Hnone).
  split; [reflexivity|]. apply Hnone. lia.
Defined.

Lemma chainMaxHeightPrevoted_witness :
  let fm := afterAdd (afterAdd manager_of_one header_1_by_A) header_2_by_A in
  reachable fm ∧ chainMaxHeightPrevoted fm ≤ maxHeight fm.
Proof.
  intros fm.
  assert (reachable fm) as Hreach.
  { apply reachable_add.
    - apply reachable_add.
      + by apply (reachable_new 0 1).
      + exact I.
    - vm_compute. reflexivity. }
  split; [exact Hreach|].
  exact (chainMaxHeightPrevoted_below_maxHeight fm Hreach).
Defined.

(** ** Further properties of the finality manager *)

Lemma minValidLoop_range hl key searchTill needle current :
  let r := minValidLoop hl key searchTill needle current in
  (r = 0 ∧ ∃ n, searchTill ≤ n ≤ needle ∧ HeadersList.get n hl = None)
  ∨ searchTill ≤ r ≤ Z.max (needle + 1) searchTill.
Proof.
  funelim (minValidLoop hl key searchTill needle current); simpl.
  - right. lia.
  - destruct H as [[Hr (m & Hm & Hget)]|Hrange].
    + left. split; [done|]. exists m. split; [lia|done].
    + right. lia.
  - left. split; [done|]. exists needle. split; [lia|done].
  - right. lia.
  - destruct H as [[Hr (m & Hm & Hget)]|Hrange].
    + left. split; [done|]. exists m. split; [lia|done].
    + right. lia.
Qed.

(** X1: [_getMinValidHeightToPreCommit] returns a height between
    searchTillHeight and one above the starting needle; the only other
    value is 0, returned when a height of the searched span has no stored
    header. *)
Theorem getMinValidHeightToPreCommit_range
    (fm : FinalityManager) (header : BlockHeader) :
  let searchTillHeight :=
    Z.max (minHeight fm) (height header - processingThreshold fm) in
  let needleHeight :=
    Z.max (maxHeightPreviouslyForged header)
          (height header - processingThreshold fm) in
  let r := _getMinValidHeightToPreCommit fm header in
  (r = 0 ∧ ∃ n, searchTillHeight ≤ n ≤ needleHeight
                ∧ HeadersList.get n (headers fm) = None)
  ∨ searchTillHeight ≤ r ≤ Z.max (needleHeight + 1) searchTillHeight.
Proof. intros st needle r. apply minValidLoop_range. Qed.

(** *** Verification against the delegate's last header *)

(** The header that [_findLastBlockForgedByDelegate] returns is a stored
    header of that delegate. *)
Lemma findLast_Some fm key d :
  _findLastBlockForgedByDelegate fm key = Some d →
  delegatePublicKey d = key ∧ d ∈ HeadersList.items (headers fm).
Proof.
  unfold _findLastBlockForgedByDelegate. intros Hfind.
  apply find_some in Hfind as [Hin Hkey].
  apply bool_decide_eq_true in Hkey. split; [done|].
  apply list_elem_of_In in Hin. rewrite elem_of_reverse in Hin.
  unfold HeadersList.top in Hin. exact (subseteq_drop _ _ _ Hin).
Qed.

(** After [add], the search for the delegate of the added header finds
    that header. *)
Lemma findLast_after_add fm h :
  0 < activeDelegates fm →
  (0 < HeadersList.size (headers fm))%nat →
  _findLastBlockForgedByDelegate
    (set_headers (HeadersList.add h (headers fm)) fm) (delegatePublicKey h)
  = Some h.
Proof.
  intros HD Hsize. unfold _findLastBlockForgedByDelegate, HeadersList.top.
  pose proof (add_last h (headers fm) Hsize) as Hlast.
  unfold HeadersList.last in Hlast. apply last_Some in Hlast as [l Hl].
  simpl. rewrite Hl.
  assert (processingThreshold (set_headers (HeadersList.add h (headers fm)) fm)
          = activeDelegates fm * 3 - 1) as -> by done.
  replace (drop (length (l ++ [h]) - Z.to_nat (activeDelegates fm * 3 - 1))
             (l ++ [h]))
    with (drop (length l - (Z.to_nat (activeDelegates fm * 3 - 1) - 1)) l ++ [h]).
  - rewrite reverse_app. simpl. by rewrite bool_decide_eq_true_2.
  - rewrite drop_app. rewrite length_app. simpl.
    replace (length l + 1 - Z.to_nat (activeDelegates fm * 3 - 1) - length l)%nat
      with 0%nat by lia.
    simpl. f_equal. f_equal. lia.
Qed.

Lemma verify_same_height (fm : FinalityManager) (h d : BlockHeader) :
  _findLastBlockForgedByDelegate fm (delegatePublicKey h) = Some d →
  maxHeightPrevoted d = maxHeightPrevoted h →
  height d = height h →
  (verifyBlockHeaders h fm).2 = inl BFTInvalidAttributeError
  ∨ (verifyBlockHeaders h fm).2 = inl BFTForkChoiceRuleError.
Proof.
  intros Hfind Hmhp Hheight.
  unfold verifyBlockHeaders. rewrite bind_unfold. unfold this. simpl.
  case_decide; [by left|]. right. rewrite Hfind.
  destruct (_ || _); simpl; rewrite decide_True; (done || split; (done || lia)).
Qed.

(** X2: once a header is accepted, a header of the same delegate at the
    same height with the same maxHeightPrevoted (the accepted header
    itself, or a second block forged for that height) is rejected, and
    the manager stays as it is. *)
Theorem double_forging_rejected
    (fm fm1 : FinalityManager) (h h' : BlockHeader) :
  0 < activeDelegates fm →
  (0 < HeadersList.size (headers fm))%nat →
  addBlockHeader h fm = (fm1, inr ()) →
  delegatePublicKey h' = delegatePublicKey h →
  height h' = height h →
  maxHeightPrevoted h' = maxHeightPrevoted h →
  ∃ e, addBlockHeader h' fm1 = (fm1, inl e)
       ∧ (e = InvalidHeaderSchema ∨ e = BFTInvalidAttributeError
          ∨ e = BFTForkChoiceRuleError).
Proof.
  intros HD Hsize Hadd Hkey Hheight Hmhp.
  assert (fm1 = acceptHeader h fm) as ->.
  { rewrite addBlockHeader_unfold in Hadd. repeat case_match; congruence. }
  assert (_findLastBlockForgedByDelegate (acceptHeader h fm)
            (delegatePublicKey h') = Some h) as Hfind.
  { rewrite Hkey. rewrite <- (findLast_after_add fm h HD Hsize).
    unfold _findLastBlockForgedByDelegate, processingThreshold, acceptHeader.
    destruct (accounting_grows
                (set_headers (HeadersList.add h (headers fm)) fm) h)
      as (HD2 & Hh2 & _).
    destruct (updatePreVotedAndFinalizedHeight_votes
                (updatePreVotesPreCommits h
                   (set_headers (HeadersList.add h (headers fm)) fm)).1)
      as (_ & _ & Hh3).
    rewrite cleanup_headers, Hh3, Hh2.
    assert (∀ x, activeDelegates (updatePreVotedAndFinalizedHeight x).1
                 = activeDelegates x) as HD3
      by (intros x; unfold updatePreVotedAndFinalizedHeight; by case_decide).
    assert (∀ x, activeDelegates (_cleanup x) = activeDelegates x) as HD4 by done.
    by rewrite HD4, HD3, HD2. }
  rewrite addBlockHeader_unfold.
  destruct (validateBlockHeader h' (acceptHeader h fm)).2 as [e|[]] eqn:Hval.
  - exists e. split; [done|]. left.
    unfold validateBlockHeader in Hval.
    case_decide; [discriminate Hval|]. by injection Hval as <-.
  - destruct (verify_same_height (acceptHeader h fm) h' h Hfind) as [He|He];
      [done|done|..]; rewrite He; eauto.
Qed.

(** X3: a header that is higher than the last header [d] of its delegate
    within the window, [d] itself not equivocating, passes
    [verifyBlockHeaders] only if it acknowledges [d]: its
    maxHeightPreviouslyForged is at least the height of [d], and neither
    its maxHeightPreviouslyForged nor its maxHeightPrevoted is below that
    of [d]. *)
Theorem verified_header_acknowledges_previous
    (fm : FinalityManager) (h d : BlockHeader) :
  _findLastBlockForgedByDelegate fm (delegatePublicKey h) = Some d →
  maxHeightPreviouslyForged d < height d →
  height d < height h →
  (verifyBlockHeaders h fm).2 = inr true →
  height d ≤ maxHeightPreviouslyForged h
  ∧ maxHeightPreviouslyForged d ≤ maxHeightPreviouslyForged h
  ∧ maxHeightPrevoted d ≤ maxHeightPrevoted h.
Proof.
  intros Hfind Hd Hhigher.
  unfold verifyBlockHeaders. rewrite bind_unfold. unfold this. simpl.
  case_decide; [done|]. rewrite Hfind.
  destruct (bool_decide (maxHeightPreviouslyForged h
                         < maxHeightPreviouslyForged d)) eqn:H1;
    destruct (bool_decide (maxHeightPreviouslyForged d
                           = maxHeightPreviouslyForged h)) eqn:H2;
    destruct (bool_decide (maxHeightPrevoted h < maxHeightPrevoted d)) eqn:H3;
    destruct (bool_decide (maxHeightPrevoted d = maxHeightPrevoted h)) eqn:H4;
    destruct (bool_decide (height h < height d)) eqn:H5;
    simpl;
    repeat match goal with
           | H : bool_decide _ = true |- _ => apply bool_decide_eq_true in H
           | H : bool_decide _ = false |- _ => apply bool_decide_eq_false in H
           end;
    repeat case_decide; try done; intros _; lia.
Qed.

(** *** Delegate states and events *)

(** X4: vote accounting never forgets a delegate and never lowers its
    maxPreCommitHeight; the states of the delegates other than the forger
    of the header are left as they are. *)
Theorem delegate_state_kept
    (fm : FinalityManager) (h : BlockHeader) (k : string) (s : DelegateState) :
  state fm !! k = Some s →
  ∃ s', state (updatePreVotesPreCommits h fm).1 !! k = Some s'
        ∧ maxPreCommitHeight s ≤ maxPreCommitHeight s'
        ∧ (k ≠ delegatePublicKey h → s' = s).
Proof.
  intros Hk.
  destruct (decide (height h ≤ maxHeightPreviouslyForged h)) as [Heq|Hlt].
  - unfold updatePreVotesPreCommits. rewrite decide_True by done. simpl.
    exists s. split; [done|]. split; [lia|done].
  - rewrite updatePreVotesPreCommits_unfold by lia. simpl.
    set (s0 := default initialDelegateState (state fm !! delegatePublicKey h)).
    destruct (preCommit_loop (preVotes fm) (preVoteThreshold fm) (preCommits fm)
                s0 (minPreCommitHeight fm h s0) (height h - 1))
      as (_ & _ & _ & Hlast).
    set (r := foldl _ _ _) in *.
    destruct (decide (k = delegatePublicKey h)) as [->|Hne].
    + rewrite lookup_insert_eq. eexists. split; [done|]. simpl.
      split; [|done].
      assert (s0 = s) as Hs0 by (unfold s0; by rewrite Hk). rewrite Hs0 in *.
      unfold minPreCommitHeight in Hlast. lia.
    + rewrite lookup_insert_ne by done. exists s. split; [done|].
      split; [lia|done].
Qed.

Lemma acceptHeader_emitted (fm : FinalityManager) (h : BlockHeader) :
  emitted (acceptHeader h fm) =
  if decide (finalizedHeight (acceptHeader h fm) = finalizedHeight fm)
  then emitted fm
  else emitted fm ++ [finalizedHeight (acceptHeader h fm)].
Proof.
  unfold acceptHeader.
  set (fm1 := set_headers (HeadersList.add h (headers fm)) fm).
  destruct (accounting_grows fm1 h) as (_ & _ & HF2 & _).
  assert (emitted (updatePreVotesPreCommits h fm1).1 = emitted fm) as HE2.
  { unfold updatePreVotesPreCommits. repeat (case_decide || case_match); done. }
  set (fm2 := (updatePreVotesPreCommits h fm1).1) in *.
  assert (finalizedHeight fm1 = finalizedHeight fm) as HF1 by done.
  rewrite HF1 in HF2. clearbody fm2.
  assert (∀ x, finalizedHeight (_cleanup x) = finalizedHeight x
               ∧ emitted (_cleanup x) = emitted x) as Hclean by done.
  destruct (Hclean (updatePreVotedAndFinalizedHeight fm2).1) as [-> ->].
  unfold updatePreVotedAndFinalizedHeight. case_decide; simpl.
  - rewrite HF2, HE2. by rewrite decide_True.
  - rewrite HF2, HE2. repeat case_decide; (done || congruence).
Qed.

(** X5: a call of [addBlockHeader] emits
    EVENT_BFT_FINALIZED_HEIGHT_CHANGED at most once, exactly when the call
    changes finalizedHeight, and with the new height as payload; a call
    that throws emits nothing. *)
Theorem addBlockHeader_emits_on_change (fm : FinalityManager) (h : BlockHeader) :
  emitted (afterAdd fm h) =
  if decide (finalizedHeight (afterAdd fm h) = finalizedHeight fm)
  then emitted fm
  else emitted fm ++ [finalizedHeight (afterAdd fm h)].
Proof.
  destruct (afterAdd_cases h fm) as [->| ->].
  - by rewrite decide_True.
  - apply acceptHeader_emitted.
Qed.

Lemma keys_empty : Tally.keys ∅ = [].
Proof. reflexivity. Qed.

Lemma cleanup_empty (n : Z) : Tally.cleanup n ∅ = ∅.
Proof. unfold Tally.cleanup, Tally.slice0. rewrite keys_empty. by rewrite take_nil. Qed.

(** X6: [removeBlockHeaders] with [aboveHeight] below every stored header
    empties the header list and resets state, preVotes, preCommits and
    chainMaxHeightPrevoted; finalizedHeight keeps its value and no event
    is emitted. *)
Theorem removeBlockHeaders_all (fm : FinalityManager) (aboveHeight : Z) :
  Forall (λ x, aboveHeight < height x) (HeadersList.items (headers fm)) →
  removeBlockHeaders aboveHeight fm =
  {| activeDelegates := activeDelegates fm;
     headers := HeadersList.empty (HeadersList.size (headers fm));
     finalizedHeight := finalizedHeight fm;
     chainMaxHeightPrevoted := 0;
     state := ∅;
     preVotes := ∅;
     preCommits := ∅;
     emitted := emitted fm |}.
Proof.
  intros Hall.
  assert (filter (λ h, height h ≤ aboveHeight) (HeadersList.items (headers fm))
          = []) as Hnil.
  { induction Hall as [|x l Hx _ IH]; [done|].
    rewrite filter_cons. rewrite decide_False by lia. done. }
  unfold removeBlockHeaders, recompute, HeadersList.remove. simpl.
  rewrite Hnil. simpl. unfold updatePreVotedAndFinalizedHeight. simpl.
  unfold _cleanup. simpl. by rewrite !cleanup_empty.
Qed.

(** *** The pre-voted height under [addBlockHeader] *)

(** What the vote accounting of one header does to the pre-vote tally. *)
Lemma accounting_grows_preVotes (fm : FinalityManager) (h : BlockHeader) :
  let fm' := (updatePreVotesPreCommits h fm).1 in
  let s := default initialDelegateState (state fm !! delegatePublicKey h) in
  (∀ j c, preVotes fm !! j = Some c →
          ∃ c', preVotes fm' !! j = Some c' ∧ c ≤ c')
  ∧ (∀ j c', preVotes fm' !! j = Some c' → preVotes fm !! j = None →
             c' = 1 ∧ maxPreVoteHeight s + 1 ≤ j)
  ∧ (0 ≤ height h → delegatesVotedNonneg (state fm) →
     delegatesVotedNonneg (state fm'))
  ∧ (∀ j, preCommits fm' !! j = preCommits fm !! j
          ∨ Tally.reaches (preVotes fm) (preVoteThreshold fm) j = true).
Proof.
  intros fm' s. subst fm'.
  destruct (decide (height h ≤ maxHeightPreviouslyForged h)) as [Heq|Hlt].
  - unfold updatePreVotesPreCommits. rewrite decide_True by done. simpl.
    split_and!; try done; [|congruence|by left].
    intros j c Hj. exists c. split; [done|lia].
  - rewrite updatePreVotesPreCommits_unfold by lia. fold s. simpl.
    destruct (preCommit_loop (preVotes fm) (preVoteThreshold fm) (preCommits fm) s
                (minPreCommitHeight fm h s) (height h - 1)) as (Hpc & _).
    set (r := foldl _ _ _) in *.
    split_and!.
    + intros j c Hj. rewrite preVote_loop. case_decide.
      * rewrite Hj. simpl. eexists. split; [done|lia].
      * exists c. split; [done|lia].
    + intros j c' Hj' Hj. rewrite preVote_loop, Hj in Hj'.
      case_decide as Hin; [|done]. simpl in Hj'. injection Hj' as <-.
      split; [done|]. unfold minPreVoteHeight in Hin. lia.
    + intros Hh Hnn k s' Hk.
      apply lookup_insert_Some in Hk as [[_ <-]|[_ Hk]]; [done|by eapply Hnn].
    + intros j. rewrite Hpc. case_decide as Hin; [by right; apply Hin|by left].
Qed.

Lemma acceptHeader_prevoteInv (fm : FinalityManager) (h : BlockHeader) :
  prevoteInv fm →
  1 ≤ height h →
  prevoteInv (acceptHeader h fm)
  ∧ chainMaxHeightPrevoted fm ≤ chainMaxHeightPrevoted (acceptHeader h fm).
Proof.
  intros (HD & Hsize & Hpos & Hnn & Hinv) Hh.
  unfold acceptHeader.
  set (fm1 := set_headers (HeadersList.add h (headers fm)) fm).
  destruct (accounting_grows fm1 h) as (HD2 & Hh2 & _ & Hc2 & _).
  destruct (accounting_grows_preVotes fm1 h) as (Hgrow & Hfresh & Hnn2 & _).
  set (fm2 := (updatePreVotesPreCommits h fm1).1) in *.
  assert (HeadersList.length (headers fm2) ≠ 0) as Hne.
  { rewrite Hh2. by apply add_nonempty. }
  rewrite (updatePreVotedAndFinalizedHeight_nonempty fm2 Hne).
  unfold _cleanup, prevoteInv, maxHeaders, preVoteThreshold. simpl.
  rewrite HD2, Hc2. simpl. rewrite Hh2. simpl. rewrite add_size.
  rewrite !cleanup_trim by lia.
  set (s := default initialDelegateState (state fm !! delegatePublicKey h)) in *.
  assert (0 ≤ maxPreVoteHeight s) as Hs.
  { subst s. destruct (state fm !! delegatePublicKey h) as [s0|] eqn:Hs0;
      simpl; [by eapply Hnn|done]. }
  assert (0 < maxPreVoteHeight s + 1) as Hlo by lia.
  assert (0 < Z.to_nat (activeDelegates fm * 5))%nat as Hn by lia.
  pose proof (nextFinalized_monotone (Z.to_nat (activeDelegates fm * 5))
                (ceil_div (activeDelegates fm * 2) 3) 0 (preVotes fm)
                (preVotes fm2) (chainMaxHeightPrevoted fm)
                (maxPreVoteHeight s + 1) Hn Hpos Hgrow Hfresh Hlo Hinv) as Hmono.
  split; [split_and!|]; try done.
  - by eapply countsPositive_step.
  - apply Hnn2; [lia|done].
  - by eapply (finalityInv_step _ _ _ _ _ _ (maxPreVoteHeight s + 1)).
Qed.

Lemma new_prevoteInv (F0 D : Z) (fm0 : FinalityManager) :
  new F0 D = Some fm0 → prevoteInv fm0.
Proof.
  unfold new. case_decide as HD; [|done]. intros [= <-].
  unfold prevoteInv. simpl. split_and!; try done; try lia.
  right. right. split; [done|]. intros j [c Hj]. by rewrite lookup_empty in Hj.
Qed.

Lemma addAll_prevoteInv (hs : list BlockHeader) (fm : FinalityManager) :
  prevoteInv fm → prevoteInv (addAll fm hs).
Proof.
  revert fm. induction hs as [|h hs IH]; intros fm Hinv; [done|].
  simpl. apply IH.
  destruct (afterAdd_valid_cases h fm) as [->|[-> Hh]]; [done|].
  by apply acceptHeader_prevoteInv.
Qed.

(** X7: across any sequence of [addBlockHeader] calls on a new manager,
    [chainMaxHeightPrevoted] after a call is at least its value before
    the call, whatever the headers and in spite of the trimming of
    preVotes. *)
Theorem chainMaxHeightPrevoted_monotone
    (F0 D : Z) (fm0 : FinalityManager) (hs : list BlockHeader) (h : BlockHeader) :
  new F0 D = Some fm0 →
  chainMaxHeightPrevoted (addAll fm0 hs)
  ≤ chainMaxHeightPrevoted (afterAdd (addAll fm0 hs) h).
Proof.
  intros Hnew.
  assert (prevoteInv (addAll fm0 hs)) as Hinv
    by (apply addAll_prevoteInv; by eapply new_prevoteInv).
  destruct (afterAdd_valid_cases h (addAll fm0 hs)) as [->|[-> Hh]]; [done|].
  by eapply proj2, acceptHeader_prevoteInv.
Qed.

Lemma cleanup_lookup_value (n : Z) (o : gmap Z Z) (j c : Z) :
  Tally.cleanup n o !! j = Some c → o !! j = Some c.
Proof.
  unfold Tally.cleanup. intros Hj.
  by apply lookup_foldr_delete_Some in Hj as [_ Hj].
Qed.

Lemma acceptHeader_commitInv (fm : FinalityManager) (h : BlockHeader) :
  prevoteInv fm → commitInv fm → 1 ≤ height h →
  commitInv (acceptHeader h fm).
Proof.
  intros Hprev [Hreach Hfin] Hh.
  destruct (acceptHeader_prevoteInv fm h Hprev Hh) as [_ Hmono].
  destruct Hprev as (HD & Hsize & _).
  revert Hmono. unfold acceptHeader.
  set (fm1 := set_headers (HeadersList.add h (headers fm)) fm).
  destruct (accounting_grows fm1 h) as (HD2 & Hh2 & HF2 & Hc2 & _).
  destruct (accounting_grows_preVotes fm1 h) as (Hgrow & _ & _ & Hcommit).
  set (fm2 := (updatePreVotesPreCommits h fm1).1) in *.
  assert (HeadersList.length (headers fm2) ≠ 0) as Hne.
  { rewrite Hh2. by apply add_nonempty. }
  rewrite (updatePreVotedAndFinalizedHeight_nonempty fm2 Hne).
  unfold _cleanup, commitInv, preCommitThreshold, preVoteThreshold. simpl.
  rewrite HD2, Hc2, HF2. simpl. intros Hmono.
  set (cm := match Tally.highest (preVotes fm2) _ with
             | Some j => j | None => chainMaxHeightPrevoted fm end) in *.
  assert (∀ j c, preCommits fm2 !! j = Some c →
                 ceil_div (activeDelegates fm * 2) 3 ≤ c → j ≤ cm) as Hreach2.
  { intros j c Hj Hc. destruct (Hcommit j) as [Hsame|Hvoted].
    - rewrite Hsame in Hj. specialize (Hreach j c Hj Hc). lia.
    - apply reaches_spec in Hvoted as (c0 & Hc0 & Ht0).
      destruct (Hgrow j c0 Hc0) as (c1 & Hc1 & Hle).
      assert (preVoteThreshold fm2 ≤ c1) as Ht1.
      { unfold preVoteThreshold in *. rewrite HD2. simpl. simpl in Ht0. lia. }
      destruct (highest_is_Some _ _ _ _ Hc1 Ht1) as [m Hm].
      subst cm. unfold preVoteThreshold in Hm. rewrite HD2 in Hm. simpl in Hm.
      rewrite Hm. apply highest_Some in Hm as [_ Hmax].
      eapply Hmax; [done|]. unfold preVoteThreshold in Ht1.
      rewrite HD2 in Ht1. done. }
  split.
  - intros j c Hj Hc. apply cleanup_lookup_value in Hj. by eapply Hreach2.
  - unfold nextFinalized.
    destruct (Tally.highest (preCommits fm2) _) as [m|] eqn:Hm; [|lia].
    apply highest_Some in Hm as [(c & Hc & Ht) _]. by eapply Hreach2.
Qed.

Lemma addAll_commitInv (hs : list BlockHeader) (fm : FinalityManager) :
  prevoteInv fm → commitInv fm → commitInv (addAll fm hs).
Proof.
  revert fm. induction hs as [|h hs IH]; intros fm Hprev Hinv; [done|].
  simpl. destruct (afterAdd_valid_cases h fm) as [->|[-> Hh]]; [by apply IH|].
  apply IH; [by apply acceptHeader_prevoteInv|by apply acceptHeader_commitInv].
Qed.

(** X8: after any sequence of [addBlockHeader] calls on a manager
    constructed with a finalizedHeight of at most 0, finalizedHeight is at
    most chainMaxHeightPrevoted: a height is finalized only once it is
    pre-voted. *)
Theorem finalized_at_most_prevoted
    (F0 D : Z) (fm0 : FinalityManager) (hs : list BlockHeader) :
  new F0 D = Some fm0 →
  F0 ≤ 0 →
  finalizedHeight (addAll fm0 hs) ≤ chainMaxHeightPrevoted (addAll fm0 hs).
Proof.
  intros Hnew HF0.
  apply addAll_commitInv; [by eapply new_prevoteInv|].
  unfold new in Hnew. case_decide; [|done]. injection Hnew as <-.
  split; simpl; [|done]. intros j c Hj. by rewrite lookup_empty in Hj.
Qed.

(** *** No vote is counted twice *)

Section covering.
Variable f : DelegateState → Z.
Implicit Types (st : gmap string DelegateState) (j : Z) (k : string).

Lemma elem_of_cover j st k :
  k ∈ (dom (filter (λ kv : string * DelegateState, (j ≤ f kv.2)%Z) st) : gset string)
  ↔ ∃ s, st !! k = Some s ∧ j ≤ f s.
Proof.
  rewrite elem_of_dom. unfold is_Some.
  setoid_rewrite map_lookup_filter_Some. simpl. done.
Qed.

Lemma cover_insert_mono j st k s' :
  (∀ s, st !! k = Some s → f s ≤ f s') →
  (base.size (dom (filter (λ kv : string * DelegateState, (j ≤ f kv.2)%Z) st) : gset string)
   ≤ base.size (dom (filter (λ kv : string * DelegateState, (j ≤ f kv.2)%Z)
                       (<[k:=s']> st)) : gset string))%nat.
Proof.
  intros Hold. apply subseteq_size. intros k' Hk'.
  apply elem_of_cover in Hk' as (s & Hs & Hj). apply elem_of_cover.
  destruct (decide (k = k')) as [<-|Hne].
  - exists s'. rewrite lookup_insert_eq. split; [done|].
    specialize (Hold s Hs). lia.
  - exists s. by rewrite lookup_insert_ne.
Qed.

Lemma cover_insert_fresh j st k s' :
  j ≤ f s' →
  (∀ s, st !! k = Some s → f s < j) →
  (S (base.size (dom (filter (λ kv : string * DelegateState, (j ≤ f kv.2)%Z) st) : gset string))
   ≤ base.size (dom (filter (λ kv : string * DelegateState, (j ≤ f kv.2)%Z)
                       (<[k:=s']> st)) : gset string))%nat.
Proof.
  intros Hj Hold.
  set (X := dom (filter (λ kv : string * DelegateState, (j ≤ f kv.2)%Z) st) : gset string).
  assert (k ∉ X) as Hk.
  { intros Hk. apply elem_of_cover in Hk as (s & Hs & Hjs).
    specialize (Hold s Hs). lia. }
  replace (S (base.size X)) with (base.size ({[k]} ∪ X)).
  2:{ rewrite size_union by (apply disjoint_singleton_l; done).
      by rewrite size_singleton. }
  apply subseteq_size. intros k' Hk'. apply elem_of_cover.
  apply elem_of_union in Hk' as [Hk'|Hk'].
  - apply elem_of_singleton in Hk' as ->. exists s'.
    by rewrite lookup_insert_eq.
  - destruct (decide (k = k')) as [<-|Hne]; [done|].
    apply elem_of_cover in Hk' as (s & Hs & Hjs). exists s.
    by rewrite lookup_insert_ne.
Qed.
End covering.

Lemma tallyBound_weaken (B B' : Z) (fm : FinalityManager) :
  B ≤ B' → tallyBound B fm → tallyBound B' fm.
Proof.
  intros HB (Hpv & Hpc & Hst & Hkeys). split_and!; try done.
  - intros k s Hk. specialize (Hst k s Hk). lia.
  - intros j Hj. specialize (Hkeys j Hj). lia.
Qed.

(** Vote accounting for a header above every recorded pre-vote keeps the
    tallies within the number of delegates that cover them. *)
Lemma accounting_tallyBound (B : Z) (fm : FinalityManager) (h : BlockHeader) :
  tallyBound B fm → B ≤ height h →
  tallyBound (height h) (updatePreVotesPreCommits h fm).1.
Proof.
  intros Hb HB.
  destruct (decide (height h ≤ maxHeightPreviouslyForged h)) as [Heq|Hlt].
  { unfold updatePreVotesPreCommits. rewrite decide_True by done. simpl.
    by eapply tallyBound_weaken. }
  destruct Hb as (Hpv & Hpc & Hst & Hkeys).
  rewrite updatePreVotesPreCommits_unfold by lia. simpl.
  set (s := default initialDelegateState (state fm !! delegatePublicKey h)).
  destruct (preCommit_loop (preVotes fm) (preVoteThreshold fm) (preCommits fm) s
              (minPreCommitHeight fm h s) (height h - 1))
    as (Hloop & _ & Hmax & Hlast).
  set (r := foldl _ _ _) in *.
  assert (∀ s0, state fm !! delegatePublicKey h = Some s0 → s0 = s) as Hs.
  { intros s0 Hs0. subst s. by rewrite Hs0. }
  unfold tallyBound, preVoters, preCommitters. simpl. split_and!.
  - intros j c. rewrite preVote_loop. case_decide as Hin.
    + intros [= <-].
      pose proof (cover_insert_fresh maxPreVoteHeight j (state fm)
                    (delegatePublicKey h)
                    {| maxPreVoteHeight := height h;
                       maxPreCommitHeight := maxPreCommitHeight r.2 |}) as Hfresh.
      simpl in Hfresh.
      assert (default 0 (preVotes fm !! j)
              ≤ Z.of_nat (base.size (preVoters j (state fm)))) as Hc.
      { destruct (preVotes fm !! j) as [c|] eqn:Hj; simpl; [by eapply Hpv|lia]. }
      unfold preVoters in Hc.
      etrans; [|apply Nat2Z.inj_le, Hfresh].
      * lia.
      * lia.
      * intros s0 Hs0. apply Hs in Hs0 as ->. unfold minPreVoteHeight in Hin. lia.
    + intros Hj. etrans; [by eapply Hpv|]. apply Nat2Z.inj_le.
      apply (cover_insert_mono maxPreVoteHeight). simpl.
      intros s0 Hs0. specialize (Hst _ _ Hs0). lia.
  - intros j c. rewrite Hloop. case_decide as Hin.
    + intros [= <-]. destruct Hin as [Hin Hreach].
      pose proof (cover_insert_fresh maxPreCommitHeight j (state fm)
                    (delegatePublicKey h)
                    {| maxPreVoteHeight := height h;
                       maxPreCommitHeight := maxPreCommitHeight r.2 |}) as Hfresh.
      simpl in Hfresh.
      assert (default 0 (preCommits fm !! j)
              ≤ Z.of_nat (base.size (preCommitters j (state fm)))) as Hc.
      { destruct (preCommits fm !! j) as [c|] eqn:Hj; simpl; [by eapply Hpc|lia]. }
      unfold preCommitters in Hc.
      etrans; [|apply Nat2Z.inj_le, Hfresh].
      * lia.
      * by apply Hmax.
      * intros s0 Hs0. apply Hs in Hs0 as ->.
        unfold minPreCommitHeight in Hin. lia.
    + intros Hj. etrans; [by eapply Hpc|]. apply Nat2Z.inj_le.
      apply (cover_insert_mono maxPreCommitHeight). simpl.
      intros s0 Hs0. apply Hs in Hs0 as ->.
      destruct Hlast as [[-> _]|[Hlo _]]; [done|].
      unfold minPreCommitHeight in Hlo. lia.
  - intros k s0 Hk.
    apply lookup_insert_Some in Hk as [[_ <-]|[_ Hk]]; simpl; [done|].
    specialize (Hst _ _ Hk). lia.
  - intros j [c Hj]. rewrite Hloop in Hj. case_decide as Hin; [lia|].
    assert (j < B) by (apply Hkeys; eauto). lia.
Qed.

Lemma replay_tallyBound (hs : list BlockHeader) (B : Z) (fm : FinalityManager) :
  StronglySorted (λ a b, height a < height b) hs →
  (∀ x, x ∈ hs → B ≤ height x) →
  tallyBound B fm →
  tallyBound (match last hs with Some t => height t | None => B end)
    (replay hs fm).
Proof.
  revert B fm. induction hs as [|x l IH]; intros B fm Hs HB Hb; [done|].
  simpl. apply StronglySorted_inv in Hs as [Hs Hx].
  rewrite Forall_forall in Hx.
  assert (tallyBound (height x) (updatePreVotesPreCommits x fm).1) as Hb'.
  { eapply accounting_tallyBound; [done|]. apply HB, elem_of_cons. by left. }
  specialize (IH (height x) (updatePreVotesPreCommits x fm).1 Hs).
  rewrite last_cons.
  destruct (last l) as [t|] eqn:Hl.
  - apply IH; [|done]. intros y Hy. specialize (Hx y Hy). lia.
  - apply IH; [|done]. intros y Hy. specialize (Hx y Hy). lia.
Qed.

Lemma cleanup_size (n : Z) (o : gmap Z Z) :
  0 < n → Z.of_nat (base.size (Tally.cleanup n o)) ≤ n.
Proof. intros Hn. rewrite cleanup_trim by done. rewrite trim_size. lia. Qed.

(** Deriving the heights and trimming the tallies keeps the bound. *)
Lemma finish_reachableInv (B : Z) (fm : FinalityManager) :
  0 < activeDelegates fm →
  tallyBound B fm →
  let fm' := _cleanup (updatePreVotedAndFinalizedHeight fm).1 in
  tallyBound B fm'
  ∧ Z.of_nat (base.size (preVotes fm')) ≤ maxHeaders fm'
  ∧ Z.of_nat (base.size (preCommits fm')) ≤ maxHeaders fm'.
Proof.
  intros HD (Hpv & Hpc & Hst & Hkeys) fm'.
  assert (activeDelegates (updatePreVotedAndFinalizedHeight fm).1 = activeDelegates fm
          ∧ state (updatePreVotedAndFinalizedHeight fm).1 = state fm
          ∧ preVotes (updatePreVotedAndFinalizedHeight fm).1 = preVotes fm
          ∧ preCommits (updatePreVotedAndFinalizedHeight fm).1 = preCommits fm)
    as (HD3 & Hst3 & Hpv3 & Hpc3).
  { unfold updatePreVotedAndFinalizedHeight. by case_decide. }
  subst fm'. unfold _cleanup, tallyBound, maxHeaders. simpl.
  rewrite HD3, Hst3, Hpv3, Hpc3. split_and!; try done.
  - intros j c Hj. apply cleanup_lookup_value in Hj. by eapply Hpv.
  - intros j c Hj. apply cleanup_lookup_value in Hj. by eapply Hpc.
  - intros j Hj. apply cleanup_lookup_Some in Hj. by apply Hkeys.
  - apply cleanup_size. lia.
  - apply cleanup_size. lia.
Qed.

Lemma acceptHeader_reachableInv (fm : FinalityManager) (h : BlockHeader) :
  reachableInv fm →
  HeadersList.appendable h (headers fm) →
  1 ≤ height h →
  reachableInv (acceptHeader h fm).
Proof.
  intros (Hinv & Hb & _ & _) Happ Hh.
  split; [by apply acceptHeader_prevotedInv|].
  destruct Hinv as (HD & Hsize & Hord & _ & _).
  assert (maxHeight fm ≤ height h) as Hold.
  { unfold maxHeight. unfold HeadersList.appendable in Happ.
    destruct (HeadersList.last (headers fm)); lia. }
  assert (maxHeight (acceptHeader h fm) = height h) as ->.
  { unfold acceptHeader.
    set (fm1 := set_headers (HeadersList.add h (headers fm)) fm).
    destruct (accounting_grows fm1 h) as (_ & Hh2 & _).
    set (fm2 := (updatePreVotesPreCommits h fm1).1) in *.
    assert (HeadersList.length (headers fm2) ≠ 0) as Hne.
    { rewrite Hh2. by apply add_nonempty. }
    rewrite (updatePreVotedAndFinalizedHeight_nonempty fm2 Hne).
    unfold _cleanup, maxHeight. simpl. rewrite Hh2. simpl.
    by rewrite add_last by done. }
  unfold acceptHeader.
  set (fm1 := set_headers (HeadersList.add h (headers fm)) fm).
  assert (tallyBound (maxHeight fm) fm1) as Hb1 by done.
  assert (0 < activeDelegates fm1) as HD1 by done.
  clearbody fm1.
  apply finish_reachableInv.
  - by destruct (accounting_grows fm1 h) as (-> & _).
  - by eapply accounting_tallyBound.
Qed.

Lemma removeBlockHeaders_reachableInv (fm : FinalityManager) (a : Z) :
  reachableInv fm → reachableInv (removeBlockHeaders a fm).
Proof.
  intros (Hinv & _).
  split; [by apply removeBlockHeaders_prevotedInv|].
  destruct Hinv as (HD & Hsize & Hord & _ & _).
  unfold removeBlockHeaders, recompute.
  set (fm1 := resetVotes (set_headers (HeadersList.remove a (headers fm)) fm)).
  assert (headersOrdered (headers fm1)) as [Hs1 Hv1] by by apply remove_ordered.
  assert (0 < activeDelegates fm1) as HD1 by done.
  assert (tallyBound 0 fm1) as Hb1.
  { unfold tallyBound. simpl. split_and!.
    - intros j c Hj. by rewrite lookup_empty in Hj.
    - intros j c Hj. by rewrite lookup_empty in Hj.
    - intros k s Hk. by rewrite lookup_empty in Hk.
    - intros j [c Hj]. by rewrite lookup_empty in Hj. }
  clearbody fm1.
  destruct (replay_headers (HeadersList.items (headers fm1)) fm1)
    as (Hh2 & HD2 & _ & _).
  pose proof (replay_tallyBound (HeadersList.items (headers fm1)) 0 fm1 Hs1)
    as Hb2.
  set (fm2 := replay _ fm1) in *.
  assert (maxHeight (_cleanup (updatePreVotedAndFinalizedHeight fm2).1)
          = match last (HeadersList.items (headers fm1)) with
            | Some t => height t
            | None => 0
            end) as ->.
  { unfold maxHeight, _cleanup, HeadersList.last. simpl.
    assert (headers (updatePreVotedAndFinalizedHeight fm2).1 = headers fm2) as ->.
    { unfold updatePreVotedAndFinalizedHeight. by case_decide. }
    by rewrite Hh2. }
  apply finish_reachableInv; [by rewrite HD2|].
  apply Hb2; [|done]. intros x Hx. rewrite Forall_forall in Hv1.
  specialize (Hv1 x Hx). lia.
Qed.

Lemma new_reachableInv (F0 D : Z) (fm : FinalityManager) :
  new F0 D = Some fm → reachableInv fm.
Proof.
  intros Hnew. split; [by eapply new_prevotedInv|].
  revert Hnew. unfold new. case_decide as HD; [|done]. intros [= <-].
  unfold tallyBound, maxHeaders. simpl. split_and!.
  - intros j c Hj. by rewrite lookup_empty in Hj.
  - intros j c Hj. by rewrite lookup_empty in Hj.
  - intros k s Hk. by rewrite lookup_empty in Hk.
  - intros j [c Hj]. by rewrite lookup_empty in Hj.
  - rewrite map_size_empty. lia.
  - rewrite map_size_empty. lia.
Qed.

Lemma reachable_reachableInv (fm : FinalityManager) :
  reachable fm → reachableInv fm.
Proof.
  induction 1 as [F0 D fm Hnew|fm h _ IH Happ|fm a _ IH].
  - by eapply new_reachableInv.
  - destruct (afterAdd_valid_cases h fm) as [->|[-> Hh]]; [done|].
    by apply acceptHeader_reachableInv.
  - by apply removeBlockHeaders_reachableInv.
Qed.

(** X9: in every reachable manager no vote is counted twice: the
    pre-vote tally of a height is at most the number of delegates whose
    recorded [maxPreVoteHeight] is at or above that height, and likewise
    for the pre-commit tally and [maxPreCommitHeight]. *)
Theorem no_vote_counted_twice (fm : FinalityManager) (j c : Z) :
  reachable fm →
  (preVotes fm !! j = Some c →
   c ≤ Z.of_nat (base.size (preVoters j (state fm))))
  ∧ (preCommits fm !! j = Some c →
     c ≤ Z.of_nat (base.size (preCommitters j (state fm)))).
Proof.
  intros Hr. apply reachable_reachableInv in Hr as (_ & (Hpv & Hpc & _) & _).
  split; [apply Hpv|apply Hpc].
Qed.

(** X10: after any sequence of calls both tallies hold at most
    [maxHeaders] heights. *)
Theorem tallies_hold_at_most_maxHeaders (fm : FinalityManager) :
  reachable fm →
  Z.of_nat (base.size (preVotes fm)) ≤ maxHeaders fm
  ∧ Z.of_nat (base.size (preCommits fm)) ≤ maxHeaders fm.
Proof.
  intros Hr. by apply reachable_reachableInv in Hr as (_ & _ & ? & ?).
Qed.

(** X11: the height of the last stored header never carries a
    pre-commit, and no delegate is recorded with a pre-vote above it:
    pre-commits are only cast for heights below the header that casts
    them. *)
Theorem tip_never_precommitted (fm : FinalityManager) :
  reachable fm →
  (∀ j, is_Some (preCommits fm !! j) → j < maxHeight fm)
  ∧ (∀ k s, state fm !! k = Some s → maxPreVoteHeight s ≤ maxHeight fm).
Proof.
  intros Hr. by apply reachable_reachableInv in Hr as (_ & (_ & _ & ? & ?) & _).
Qed.

(** *** Removing twice *)

(** Vote accounting neither reads nor writes the two derived heights and
    the emitted events. *)
Lemma accounting_frame (c F : Z) (E : list Z) (fm : FinalityManager)
    (h : BlockHeader) :
  (updatePreVotesPreCommits h (set_heights c F E fm)).1
  = set_heights c F E (updatePreVotesPreCommits h fm).1.
Proof.
  unfold updatePreVotesPreCommits. case_decide; [done|].
  change (state (set_heights c F E fm)) with (state fm).
  change (preVotes (set_heights c F E fm)) with (preVotes fm).
  change (preCommits (set_heights c F E fm)) with (preCommits fm).
  change (preVoteThreshold (set_heights c F E fm)) with (preVoteThreshold fm).
  set (s := default initialDelegateState (state fm !! delegatePublicKey h)).
  change (minPreCommitHeight (set_heights c F E fm) h s)
    with (minPreCommitHeight fm h s).
  change (minPreVoteHeight (set_heights c F E fm) h s)
    with (minPreVoteHeight fm h s).
  by destruct (foldl _ _ _).
Qed.

Lemma replay_frame (c F : Z) (E : list Z) (hs : list BlockHeader)
    (fm : FinalityManager) :
  replay hs (set_heights c F E fm) = set_heights c F E (replay hs fm).
Proof.
  revert fm. induction hs as [|h hs IH]; intros fm; [done|].
  simpl. by rewrite accounting_frame, IH.
Qed.

(** Deriving the heights a second time, from the finalized height and
    the events of the first time, changes nothing. *)
Lemma updatePreVotedAndFinalizedHeight_again (fm : FinalityManager) :
  chainMaxHeightPrevoted fm = 0 →
  let fm' := (updatePreVotedAndFinalizedHeight fm).1 in
  (updatePreVotedAndFinalizedHeight
     (set_heights 0 (finalizedHeight fm') (emitted fm') fm)).1 = fm'.
Proof.
  intros Hc fm'. subst fm'. unfold updatePreVotedAndFinalizedHeight.
  change (HeadersList.length (headers (set_heights ?c ?F ?E fm)))
    with (HeadersList.length (headers fm)).
  case_decide as Hlen; simpl.
  - destruct fm. simpl in *. by subst.
  - unfold set_heights. simpl.
    rewrite Hc. f_equal.
    + by destruct (Tally.highest (preCommits fm) _).
    + destruct (Tally.highest (preCommits fm) _) as [j|]; simpl.
      * by rewrite decide_True by done.
      * by rewrite decide_True by done.
Qed.

Lemma removeBlockHeaders_headers (a : Z) (fm : FinalityManager) :
  headers (removeBlockHeaders a fm) = HeadersList.remove a (headers fm)
  ∧ activeDelegates (removeBlockHeaders a fm) = activeDelegates fm.
Proof.
  unfold removeBlockHeaders, recompute.
  set (fm1 := resetVotes _).
  assert (headers fm1 = HeadersList.remove a (headers fm)
          ∧ activeDelegates fm1 = activeDelegates fm) as [Hh1 HD1] by done.
  clearbody fm1.
  change (headers (_cleanup ?x)) with (headers x).
  change (activeDelegates (_cleanup ?x)) with (activeDelegates x).
  destruct (replay_headers (HeadersList.items (headers fm1)) fm1)
    as (Hh & HD & _).
  assert (∀ fm2, headers (updatePreVotedAndFinalizedHeight fm2).1 = headers fm2
                 ∧ activeDelegates (updatePreVotedAndFinalizedHeight fm2).1
                   = activeDelegates fm2) as Hupd.
  { intros fm2. unfold updatePreVotedAndFinalizedHeight. by case_decide. }
  destruct (Hupd (replay (HeadersList.items (headers fm1)) fm1)) as [-> ->].
  by rewrite Hh, HD, Hh1, HD1.
Qed.

Lemma remove_remove (a b : Z) (l : HeadersList.t) :
  b ≤ a →
  HeadersList.remove a (HeadersList.remove b l) = HeadersList.remove b l.
Proof.
  intros Hba. unfold HeadersList.remove. simpl. f_equal.
  induction (HeadersList.items l) as [|x xs IH]; [done|].
  rewrite (filter_cons _ x xs). case_decide as Hx; [|done].
  rewrite filter_cons. rewrite decide_True by lia. by rewrite IH.
Qed.

(** X12: removing the headers above a height that is no lower than the
    height of the removal just made changes nothing: the headers, the
    tallies and both heights stay, and no event is emitted a second
    time. *)
Theorem removeBlockHeaders_again (a b : Z) (fm : FinalityManager) :
  b ≤ a →
  removeBlockHeaders a (removeBlockHeaders b fm) = removeBlockHeaders b fm.
Proof.
  intros Hba.
  destruct (removeBlockHeaders_headers b fm) as [Hh HD].
  unfold removeBlockHeaders at 1.
  assert (set_headers (HeadersList.remove a (headers (removeBlockHeaders b fm)))
            (removeBlockHeaders b fm) = removeBlockHeaders b fm) as ->.
  { rewrite Hh, remove_remove by done. rewrite <- Hh.
    by destruct (removeBlockHeaders b fm). }
  set (fm1 := resetVotes (set_headers (HeadersList.remove b (headers fm)) fm)).
  assert (resetVotes (removeBlockHeaders b fm)
          = set_heights 0 (finalizedHeight (removeBlockHeaders b fm))
              (emitted (removeBlockHeaders b fm)) fm1) as Hreset.
  { unfold resetVotes, set_heights. rewrite Hh, HD. done. }
  unfold recompute at 1. rewrite Hreset.
  change (headers (set_heights ?c ?F ?E fm1)) with (headers fm1).
  rewrite replay_frame.
  unfold removeBlockHeaders, recompute. fold fm1.
  set (fm2 := replay (HeadersList.items (headers fm1)) fm1).
  assert (chainMaxHeightPrevoted fm2 = 0) as Hc.
  { subst fm2.
    by destruct (replay_headers (HeadersList.items (headers fm1)) fm1)
      as (_ & _ & _ & ->). }
  clearbody fm2.
  change (finalizedHeight (_cleanup ?x)) with (finalizedHeight x).
  change (emitted (_cleanup ?x)) with (emitted x).
  by rewrite updatePreVotedAndFinalizedHeight_again.
Qed.

(** ** The P2P coordinator: further properties *)

(** X13: a node that was started and stopped cannot be started again:
    [stop] clears the populator's timer without resetting
    [_populatorIntervalId], so the second [start] throws 'Populator is
    already running' after the peer server has been started, leaving the
    node active with no populator. *)
Theorem restart_throws (minTriedPeerCount : nat) (node : P2P.t) :
  P2P._isActive node = false →
  P2P._populatorIntervalId node = false →
  ∃ started stopped failed,
    P2P.start minTriedPeerCount node = (started, inr ())
    ∧ P2P.stop started = (stopped, inr ())
    ∧ P2P.start minTriedPeerCount stopped
      = (failed, inl P2P.PopulatorAlreadyRunning)
    ∧ P2P._isActive failed = true
    ∧ P2P.populatorRunning failed = false.
Proof.
  intros Hactive Hid. destruct node. simpl in *. subst.
  unfold P2P.start, P2P.stop, P2P._startPeerServer, P2P._startPopulator,
    P2P._stopPopulator, P2P._stopPeerServer, P2P.self, P2P.update,
    mbind, P2P.P_bind, mret, P2P.P_ret, mthrow, P2P.P_throw.
  simpl.
  destruct (decide (base.size (P2P.triedPeers _peerBook) < minTriedPeerCount)%nat)
    as [Hfew|Hmany]; simpl.
  - do 3 eexists. split; [reflexivity|]. simpl. split; [reflexivity|].
    simpl. rewrite decide_True by done. simpl. done.
  - do 3 eexists. split; [reflexivity|]. simpl. split; [reflexivity|].
    simpl. rewrite decide_False by done. simpl. done.
Qed.

Section more_get_peers_facts.
Import P2P.
Variable getByteSize : list ProtocolPeerInfo → Z.

(** X14: the response of [_handleGetPeersRequest] is a prefix of the
  sanitized list of the advertising sampled peers, in their order, and
  it is the whole list when that list is below the payload limit. *)
Theorem getPeers_prefix (config : P2PConfig) (selectedPeers : list P2PPeerInfo) :
let sanitized := sanitize <$> List.filter advertised selectedPeers in
let response := _handleGetPeersRequest getByteSize config selectedPeers in
success response = true
∧ peers response `prefix_of` sanitized
∧ (getByteSize sanitized < orDefault (wsMaxPayload config) DEFAULT_WS_MAX_PAYLOAD →
   peers response = sanitized).
Proof.
intros sanitized response. subst response. unfold _handleGetPeersRequest.
simpl. fold sanitized. split; [done|]. split.
- case_decide; [done|]. unfold Tally.slice0. apply prefix_take.
- intros Hsmall. by rewrite decide_True.
Qed.

(** X15: when the configured [maxPeerInfoSize] exceeds the default
  payload and the sanitized list is not below the payload limit, the
  slice end is -1: the response is the list without its last entry,
  whatever its size. *)
Theorem getPeers_drops_last (config : P2PConfig)
  (selectedPeers : list P2PPeerInfo) (m : Z) :
maxPeerInfoSize config = Some m →
DEFAULT_WS_MAX_PAYLOAD < m →
let sanitized := sanitize <$> List.filter advertised selectedPeers in
¬ getByteSize sanitized < orDefault (wsMaxPayload config) DEFAULT_WS_MAX_PAYLOAD →
peers (_handleGetPeersRequest getByteSize config selectedPeers)
= take (length sanitized - 1) sanitized.
Proof.
intros Hm Hlarge sanitized Hsize.
rewrite getPeers_truncated by done. fold sanitized.
rewrite Hm. unfold orDefault, DEFAULT_WS_MAX_PAYLOAD in *.
rewrite decide_False by lia.
rewrite Z.div_small by lia. unfold Tally.slice0. simpl.
f_equal. lia.
Qed.

Lemma sanitize_lookup (peer : P2PPeerInfo) (k : string) (v : JSValue) :
sharedState peer !! k = Some v → sanitize peer !! k = Some v.
Proof. intros Hk. unfold sanitize. by apply lookup_union_Some_l. Qed.

(** X16: in the response of [_handleGetPeersRequest] the shared state of
  a peer wins over its address: every attribute of the shared state,
  [ipAddress] and [wsPort] included, is what the entry carries. *)
Theorem getPeers_shared_state_wins (config : P2PConfig)
  (selectedPeers : list P2PPeerInfo) :
Forall (λ entry,
          ∃ peer, peer ∈ selectedPeers
                  ∧ advertised peer = true
                  ∧ (∀ k v, sharedState peer !! k = Some v →
                            entry !! k = Some v)
                  ∧ (sharedState peer !! "ipAddress" = None →
                     entry !! "ipAddress" = Some (JSString (ipAddress peer)))
                  ∧ (sharedState peer !! "wsPort" = None →
                     entry !! "wsPort" = Some (JSNumber (wsPort peer))))
       (peers (_handleGetPeersRequest getByteSize config selectedPeers)).
Proof.
apply Forall_forall. intros entry Hentry.
apply getPeers_only_advertised in Hentry as (peer & Hpeer & Hadv & ->).
exists peer. split_and!; try done.
- intros k v. apply sanitize_lookup.
- intros Hnone. unfold sanitize. rewrite lookup_union_r by done.
  by rewrite lookup_insert_eq.
- intros Hnone. unfold sanitize. rewrite lookup_union_r by done.
  rewrite lookup_insert_ne by done. by rewrite lookup_insert_eq.
Qed.
End more_get_peers_facts.

Section views_facts.
Import P2P P2PViews.

Lemma connectedEntry_peerId (peer : P2PPeerInfo) :
connectedEntry peer !! "peerId" = Some (JSString (peerId peer)).
Proof. unfold connectedEntry. by rewrite lookup_insert_eq. Qed.

Lemma filter_Forall2_fmap {A B} (f : A → B) (l : list A) (R : A → B → Prop) :
(∀ x, x ∈ l → R x (f x)) → Forall2 R l (f <$> l).
Proof.
induction l as [|x l IH]; intros HR; [constructor|].
simpl. constructor.
- apply HR, elem_of_cons. by left.
- apply IH. intros y Hy. apply HR, elem_of_cons. by right.
Qed.

(** X17: [getConnectedPeers] lists the connected peers that advertise
  their address, in the pool's order, and there the peer's own
  [ipAddress], [wsPort] and [peerId] win over attributes of the same
  name in its shared state; every other attribute is the shared
  state's. *)
Theorem getConnectedPeers_address_wins (connectedPeerInfos : list P2PPeerInfo) :
Forall2 (λ peer entry,
           advertised peer = true
           ∧ peer ∈ connectedPeerInfos
           ∧ entry !! "ipAddress" = Some (JSString (ipAddress peer))
           ∧ entry !! "wsPort" = Some (JSNumber (wsPort peer))
           ∧ entry !! "peerId" = Some (JSString (peerId peer))
           ∧ ∀ k, k ≠ "ipAddress" → k ≠ "wsPort" → k ≠ "peerId" →
                  entry !! k = sharedState peer !! k)
        (List.filter advertised connectedPeerInfos)
        (getConnectedPeers connectedPeerInfos).
Proof.
unfold getConnectedPeers. apply filter_Forall2_fmap. intros peer Hpeer.
apply list_elem_of_In, filter_In in Hpeer as [Hpeer Hadv].
apply list_elem_of_In in Hpeer. unfold connectedEntry.
split_and!; try done.
- rewrite lookup_insert_ne by done. rewrite lookup_insert_ne by done.
  by rewrite lookup_insert_eq.
- rewrite lookup_insert_ne by done. by rewrite lookup_insert_eq.
- by rewrite lookup_insert_eq.
- intros k H1 H2 H3. by rewrite !lookup_insert_ne by done.
Qed.

Lemma find_connected_None (id : string) (connected : list P2PPeerInfo) :
List.find (λ connectedPeer : ProtocolPeerInfo,
             bool_decide (connectedPeer !! "peerId" = Some (JSString id)))
  (getConnectedPeers connected) = None
↔ ∀ c, c ∈ connected → advertised c = true → peerId c ≠ id.
Proof.
split.
- intros Hnone c Hc Hadv Hid.
  pose proof (find_none _ _ Hnone (connectedEntry c)) as Hc'.
  simpl in Hc'. rewrite connectedEntry_peerId, Hid in Hc'.
  rewrite bool_decide_eq_false in Hc'. apply Hc'; [|done].
  apply list_elem_of_In. unfold getConnectedPeers.
  apply list_elem_of_fmap. exists c. split; [done|].
  apply list_elem_of_In, filter_In. split; [|done].
  by apply list_elem_of_In.
- intros Hall.
  destruct (List.find _ _) as [entry|] eqn:Hfind; [|done].
  apply find_some in Hfind as [Hin Hid]. exfalso.
  apply list_elem_of_In in Hin. unfold getConnectedPeers in Hin.
  apply list_elem_of_fmap in Hin as (c & -> & Hc).
  apply list_elem_of_In, filter_In in Hc as [Hc Hadv].
  apply list_elem_of_In in Hc.
  rewrite connectedEntry_peerId in Hid.
  apply bool_decide_eq_true in Hid. injection Hid as Hid.
  by apply (Hall c).
Qed.

(** X18: [getDisconnectedPeers] lists exactly the peers of the book that
  advertise their address and whose id is not the id of a connected
  peer that advertises its address.  A connected peer that hides its
  address in the pool is therefore listed as disconnected when its
  entry in the book advertises. *)
Theorem getDisconnectedPeers_spec
  (allPeers connectedPeerInfos : list P2PPeerInfo) (entry : ProtocolPeerInfo) :
entry ∈ getDisconnectedPeers allPeers connectedPeerInfos
↔ ∃ peer, peer ∈ allPeers
          ∧ advertised peer = true
          ∧ (∀ c, c ∈ connectedPeerInfos → advertised c = true →
                  peerId c ≠ peerId peer)
          ∧ entry = connectedEntry peer.
Proof.
unfold getDisconnectedPeers. rewrite list_elem_of_fmap. split.
- intros (peer & -> & Hpeer). exists peer.
  apply list_elem_of_In, filter_In in Hpeer as [Hpeer Hadv].
  apply filter_In in Hpeer as [Hpeer Hfind].
  apply list_elem_of_In in Hpeer. split_and!; try done.
  apply find_connected_None.
  by destruct (List.find _ _).
- intros (peer & Hpeer & Hadv & Hnone & ->). exists peer. split; [done|].
  apply list_elem_of_In, filter_In. split; [|done].
  apply filter_In. split; [by apply list_elem_of_In|].
  apply find_connected_None in Hnone. by rewrite Hnone.
Qed.
End views_facts.

Section node_facts.
Import P2P P2PViews.

Lemma isNetworkReadyCalls_acc (counts : list nat) (node : t) (acc : list bool) :
foldl (λ acc n, let r := _isNetworkReady n acc.1 in (r.1, acc.2 ++ [r.2]))
      (node, acc) counts
= ((isNetworkReadyCalls counts node).1,
   acc ++ (isNetworkReadyCalls counts node).2).
Proof.
unfold isNetworkReadyCalls. revert node acc.
induction counts as [|n counts IH]; intros node acc.
- simpl. by rewrite app_nil_r.
- simpl. rewrite IH. rewrite (IH _ [_]). simpl. by rewrite <- app_assoc.
Qed.

Lemma isNetworkReadyCalls_cons (n : nat) (counts : list nat) (node : t) :
isNetworkReadyCalls (n :: counts) node
= ((isNetworkReadyCalls counts (_isNetworkReady n node).1).1,
   (_isNetworkReady n node).2
     :: (isNetworkReadyCalls counts (_isNetworkReady n node).1).2).
Proof.
unfold isNetworkReadyCalls at 1. simpl. by rewrite isNetworkReadyCalls_acc.
Qed.

Lemma isNetworkReadyCalls_connected (counts : list nat) (node : t) :
_hasConnected node = true →
isNetworkReadyCalls counts node = (node, replicate (length counts) false).
Proof.
intros Hc. induction counts as [|n counts IH]; [done|].
rewrite isNetworkReadyCalls_cons. unfold _isNetworkReady. rewrite Hc. simpl.
by rewrite IH.
Qed.

(** X19: over any sequence of calls, [_isNetworkReady] answers true
  exactly once, at the first call that finds a connected peer, and
  false at every call before and after it. *)
Theorem isNetworkReady_once (before after : list nat) (n : nat) (node : t) :
_hasConnected node = false →
Forall (λ m, m = 0%nat) before →
(0 < n)%nat →
isNetworkReadyCalls (before ++ n :: after) node
= (set_hasConnected true node,
   replicate (length before) false
     ++ (true :: replicate (length after) false)).
Proof.
intros Hc Hbefore Hn. induction Hbefore as [|m before -> _ IH].
- simpl. rewrite isNetworkReadyCalls_cons. unfold _isNetworkReady.
  rewrite Hc. rewrite bool_decide_eq_true_2 by done. simpl.
  by rewrite isNetworkReadyCalls_connected.
- simpl. rewrite isNetworkReadyCalls_cons. unfold _isNetworkReady at 1 2 3.
  rewrite Hc. simpl. by rewrite IH.
Qed.

(** X20: bans are kept by address while the events name peers: banning a
  peer bans every peer at its address, and unbanning any peer of that
  address lifts the ban for all of them. *)
Theorem ban_is_by_address (p q : string) (node : t) :
ipAddressOf p = ipAddressOf q →
let banned := (_handleBanPeer p node).1 in
let unbanned := (_handleUnbanPeer q banned).1 in
ipAddressOf q ∈ _bannedPeers banned
∧ (ipAddressOf p ∉ _bannedPeers unbanned)
∧ (_handleBanPeer p node).2 = [EVENT_BAN_PEER p]
∧ (_handleUnbanPeer q banned).2 = [EVENT_UNBAN_PEER q].
Proof.
intros Hpq banned unbanned. subst unbanned.
assert (_bannedPeers banned = {[ipAddressOf p]} ∪ _bannedPeers node) as Hb.
{ subst banned. unfold _handleBanPeer. simpl. by case_match. }
split_and!; try done.
- rewrite Hb, <- Hpq. apply elem_of_union_l. by apply elem_of_singleton.
- simpl. rewrite Hb, <- Hpq. intros Hin.
  apply elem_of_difference in Hin as [_ Hin]. apply Hin.
  by apply elem_of_singleton.
Qed.

Lemma removePeer_lookup (p q : string) (book : PeerBook) :
book_getPeer q (removePeer p book)
= if decide (q = p) then None else book_getPeer q book.
Proof.
unfold book_getPeer, removePeer. simpl. case_decide as Hq.
- subst. by rewrite !lookup_delete_eq.
- by rewrite !lookup_delete_ne by done.
Qed.

(** X21: [_handleBanPeer] puts the address of the peer on the ban list
  whether or not the peer is whitelisted, takes the peer out of the
  address book unless it is whitelisted, and touches neither another
  peer's entry nor the pool of live connections. *)
Theorem ban_removes_unless_whitelisted (p : string) (node : t) :
let node' := (_handleBanPeer p node).1 in
ipAddressOf p ∈ _bannedPeers node'
∧ (p ∈ whitelisted node → _peerBook node' = _peerBook node)
∧ (p ∉ whitelisted node → book_getPeer p (_peerBook node') = None)
∧ (∀ q, q ≠ p →
        book_getPeer q (_peerBook node') = book_getPeer q (_peerBook node))
∧ _peerPool node' = _peerPool node.
Proof.
intros node'. subst node'. unfold _handleBanPeer. simpl.
destruct (book_getPeer p (_peerBook node)) as [existing|] eqn:Hbook.
- rewrite bool_decide_eq_true_2 by eauto. simpl.
  destruct (bool_decide (p ∈ whitelisted node)) eqn:Hw; simpl.
  + apply bool_decide_eq_true in Hw. split_and!; try done.
    apply elem_of_union_l. by apply elem_of_singleton.
  + apply bool_decide_eq_false in Hw. split_and!; try done.
    * apply elem_of_union_l. by apply elem_of_singleton.
    * intros _. rewrite removePeer_lookup. by rewrite decide_True.
    * intros q Hq. rewrite removePeer_lookup. by rewrite decide_False.
- rewrite bool_decide_eq_false_2 by (intros [? ?]; done). simpl.
  split_and!; try done.
  apply elem_of_union_l. by apply elem_of_singleton.
Qed.

(** X22: [_handleDiscoveredPeer] adds a peer that the book does not hold
  and that is not blacklisted to the new table and emits
  DiscoveredPeer; for every other peer it does nothing.  The book is
  asked for the peer before [addPeer] is called, so the branch for
  ExistingPeerError is never taken: the handler never updates or
  upgrades an entry. *)
Theorem discovered_peer_added_once
  (updatePeer : P2PPeerInfo → PeerBook → PeerBook * bool)
  (upgradePeer : P2PPeerInfo → PeerBook → PeerBook)
  (blacklistedPeers : gset string) (info : P2PPeerInfo) (node : t) :
let r := _handleDiscoveredPeer updatePeer upgradePeer blacklistedPeers
           info node in
(book_getPeer (peerId info) (_peerBook node) = None →
 peerId info ∉ blacklistedPeers →
 r = (set_peerBook
        {| newPeers := <[peerId info := info]> (newPeers (_peerBook node));
           triedPeers := triedPeers (_peerBook node) |} node,
      [EVENT_DISCOVERED_PEER info]))
∧ (is_Some (book_getPeer (peerId info) (_peerBook node))
   ∨ peerId info ∈ blacklistedPeers →
   r = (node, [])).
Proof.
intros r. subst r. unfold _handleDiscoveredPeer. split.
- intros Hnone Hbl. rewrite Hnone.
  rewrite bool_decide_eq_false_2 by (intros [? ?]; done).
  rewrite (bool_decide_eq_false_2 _ Hbl). simpl.
  unfold addPeer. by rewrite Hnone.
- intros [Hsome|Hbl].
  + by rewrite (bool_decide_eq_true_2 _ Hsome).
  + rewrite (bool_decide_eq_true_2 _ Hbl). simpl.
    by rewrite andb_false_r.
Qed.

(** X23: the payload limit given to the master server and the one given
  to the peer pool are the same unless [wsMaxPayload] is configured as
  0: the server then gets 0 and the pool the default. *)
Theorem payload_limits_agree (config : P2PConfig) :
masterServerMaxPayload config = pool_wsMaxPayload (createPeerPoolConfig config)
↔ wsMaxPayload config ≠ Some 0.
Proof.
unfold masterServerMaxPayload, createPeerPoolConfig, orDefault. simpl.
destruct (wsMaxPayload config) as [v|]; simpl.
- case_decide as Hv.
  + subst. unfold DEFAULT_WS_MAX_PAYLOAD. split; [done|]. by intros [].
  + split; [|done]. intros _ [= ->]. done.
- done.
Qed.
End node_facts.

Section tried_peers_facts.
Import P2P P2PViews.

(** X24: [getTriedPeers] lists every tried peer, in the book's order and
  without the filter on [advertiseAddress] that the other two views
  apply: a peer that does not advertise its address is listed with its
  own [ipAddress] and [wsPort], which win over its shared state. *)
Theorem getTriedPeers_lists_every_peer (triedPeers : list P2PPeerInfo) :
Forall2 (λ peer entry,
           entry !! "ipAddress" = Some (JSString (ipAddress peer))
           ∧ entry !! "wsPort" = Some (JSNumber (wsPort peer))
           ∧ ∀ k, k ≠ "ipAddress" → k ≠ "wsPort" →
                  entry !! k = sharedState peer !! k)
        triedPeers (getTriedPeers triedPeers).
Proof.
unfold getTriedPeers. apply filter_Forall2_fmap. intros peer _.
unfold triedEntry. split_and!.
- rewrite lookup_insert_ne by done. by rewrite lookup_insert_eq.
- by rewrite lookup_insert_eq.
- intros k H1 H2. by rewrite !lookup_insert_ne by done.
Qed.
End tried_peers_facts.

(** ** The block processor of version 0 *)

(** X25: a block that comes without [maxHeightPreviouslyForged] (or with
    0) leaves the [deserialize] pipe with [maxHeightPreviouslyForged]
    equal to its height and [maxHeightPrevoted] defaulted to 0; a header
    with these attributes is handled as an equivocation by the vote
    accounting: it casts no pre-vote and no pre-commit. *)
Theorem v0_block_casts_no_votes
    (updatedBlock : BlockProcessorV0.Block) (h : BlockHeader)
    (fm : FinalityManager) :
  let block := BlockProcessorV0.deserialize updatedBlock in
  BlockProcessorV0.maxHeightPreviouslyForged updatedBlock = None
  ∨ BlockProcessorV0.maxHeightPreviouslyForged updatedBlock = Some 0 →
  Some (maxHeightPreviouslyForged h)
  = BlockProcessorV0.maxHeightPreviouslyForged block →
  height h = BlockProcessorV0.height block →
  maxHeightPreviouslyForged h = height h
  ∧ updatePreVotesPreCommits h fm = (fm, false).
Proof.
  intros block Hnone Hm Hh. subst block. simpl in *.
  assert (maxHeightPreviouslyForged h = height h) as Heq.
  { destruct Hnone as [Hnone|Hnone]; rewrite Hnone in Hm; simpl in Hm;
      injection Hm as Hm; congruence. }
  split; [done|]. unfold updatePreVotesPreCommits.
  by rewrite decide_True by lia.
Qed.

Section create_facts.
Import BlockProcessorV0.

Lemma selectTransactions_spec (maxPayloadLength : Z) (trs : list Transaction)
  (acc : Selection) :
let r := selectTransactions maxPayloadLength trs acc in
∃ taken,
  taken `prefix_of` trs
  ∧ blockTransactions r = blockTransactions acc ++ taken
  ∧ transactionsBytesArray r
    = transactionsBytesArray acc ++ (getBytes <$> taken)
  ∧ BlockProcessorV0.size r
    = BlockProcessorV0.size acc
      + Z.of_nat (length (concat (getBytes <$> taken)))
  ∧ totalFee r = totalFee acc + foldr Z.add 0 (fee <$> taken)
  ∧ (BlockProcessorV0.size acc ≤ maxPayloadLength →
     BlockProcessorV0.size r ≤ maxPayloadLength)
  ∧ (∀ t rest, trs = taken ++ t :: rest →
               maxPayloadLength
               < BlockProcessorV0.size r + Z.of_nat (length (getBytes t))).
Proof.
revert acc. induction trs as [|t trs IH]; intros acc r; subst r.
- exists []. simpl. rewrite !app_nil_r. split_and!; try done; try lia.
- simpl. case_decide as Hfit.
  + exists []. simpl. rewrite !app_nil_r. split_and!; try done; try lia.
    * apply prefix_nil.
    * intros t' rest [= <- <-]. lia.
  + destruct (IH {| size := BlockProcessorV0.size acc
                              + Z.of_nat (length (getBytes t));
                    totalFee := totalFee acc + fee t;
                    totalAmount := totalAmount acc + orElse (amount t) 0;
                    blockTransactions := blockTransactions acc ++ [t];
                    transactionsBytesArray :=
                      transactionsBytesArray acc ++ [getBytes t] |})
      as (taken & Hpre & Hbt & Hba & Hsize & Hfee & Hmax & Hnext).
    simpl in *. exists (t :: taken). split_and!.
    * by apply prefix_cons.
    * rewrite Hbt. by rewrite <- app_assoc.
    * rewrite Hba. by rewrite <- app_assoc.
    * rewrite Hsize, fmap_cons. cbn [concat]. rewrite length_app. lia.
    * rewrite Hfee, fmap_cons. cbn [foldr]. lia.
    * intros _. apply Hmax. lia.
    * intros t' rest [= ->]. by eapply Hnext.
Qed.

(** X26: [_create] takes the pending transactions in their order until
  the first one that would exceed [maxPayloadLength], and stops there:
  the transactions of the block are a prefix of the pending ones, the
  first transaction left out does not fit, [payloadLength] is the
  number of bytes of the transactions taken and is within the limit,
  and [numberOfTransactions] and [totalFee] are theirs.  The block
  follows [previousBlock]; without one the method throws. *)
Theorem create_takes_fitting_prefix
  (calculateReward : Z → Z) (hashHex : list Byte.byte → string)
  (maxPayloadLength : Z) (transactions : list Transaction)
  (previousBlock : option PreviousBlock) (publicKey : string)
  (timestamp : Z) :
match _create calculateReward hashHex maxPayloadLength (Some transactions)
        previousBlock publicKey timestamp with
| inl TypeError => previousBlock = None
| inr block =>
    ∃ previous,
      previousBlock = Some previous
      ∧ new_height block = previous_height previous + 1
      ∧ new_previousBlockId block = previous_id previous
      ∧ new_transactions block `prefix_of` transactions
      ∧ (∀ t rest,
           transactions = new_transactions block ++ t :: rest →
           maxPayloadLength
           < new_payloadLength block + Z.of_nat (length (getBytes t)))
      ∧ new_payloadLength block
        = Z.of_nat (length (concat (getBytes <$> new_transactions block)))
      ∧ (0 ≤ maxPayloadLength → new_payloadLength block ≤ maxPayloadLength)
      ∧ new_numberOfTransactions block
        = Z.of_nat (length (new_transactions block))
      ∧ new_totalFee block = foldr Z.add 0 (fee <$> new_transactions block)
      ∧ new_payloadHash block
        = hashHex (concat (getBytes <$> new_transactions block))
end.
Proof.
unfold _create. destruct previousBlock as [previous|]; [|done].
simpl.
destruct (selectTransactions_spec maxPayloadLength transactions
            {| size := 0; totalFee := 0; totalAmount := 0;
               blockTransactions := []; transactionsBytesArray := [] |})
  as (taken & Hpre & Hbt & Hba & Hsize & Hfee & Hmax & Hnext).
simpl in *. exists previous. rewrite Hbt, Hba.
split_and!; done.
Qed.
End create_facts.

(** *** Quorums *)


(** X28: a call of [addBlockHeader] on a reachable manager moves the
    finalized height only to a height that at least [preCommitThreshold]
    different delegates have pre-committed for (their recorded
    [maxPreCommitHeight] is at or above it), and moves
    [chainMaxHeightPrevoted] only to a height that at least
    [preVoteThreshold] different delegates have pre-voted for. *)
Theorem moved_by_quorum (fm : FinalityManager) (h : BlockHeader) :
  reachable fm →
  HeadersList.appendable h (headers fm) →
  let fm' := afterAdd fm h in
  (finalizedHeight fm' ≠ finalizedHeight fm →
   preCommitThreshold fm'
   ≤ Z.of_nat (base.size (preCommitters (finalizedHeight fm') (state fm'))))
  ∧ (chainMaxHeightPrevoted fm' ≠ chainMaxHeightPrevoted fm →
     preVoteThreshold fm'
     ≤ Z.of_nat (base.size (preVoters (chainMaxHeightPrevoted fm') (state fm')))).
Proof.
  intros Hr Happ fm'. subst fm'.
  destruct (afterAdd_valid_cases h fm) as [->|[-> Hh]]; [done|].
  apply reachable_reachableInv in Hr as (Hinv & Hb & _).
  destruct Hinv as (HD & Hsize & _).
  assert (maxHeight fm ≤ height h) as Hold.
  { unfold maxHeight. unfold HeadersList.appendable in Happ.
    destruct (HeadersList.last (headers fm)); lia. }
  unfold acceptHeader.
  set (fm1 := set_headers (HeadersList.add h (headers fm)) fm).
  assert (tallyBound (height h) (updatePreVotesPreCommits h fm1).1)
    as (Hpv & Hpc & _) by by eapply (accounting_tallyBound (maxHeight fm)).
  destruct (accounting_grows fm1 h) as (HD2 & Hh2 & HF2 & Hc2 & _).
  set (fm2 := (updatePreVotesPreCommits h fm1).1) in *.
  assert (HeadersList.length (headers fm2) ≠ 0) as Hne.
  { rewrite Hh2. by apply add_nonempty. }
  rewrite (updatePreVotedAndFinalizedHeight_nonempty fm2 Hne).
  unfold _cleanup, preCommitThreshold, preVoteThreshold, nextFinalized. simpl.
  rewrite HF2, Hc2. simpl. split.
  - destruct (Tally.highest (preCommits fm2) _) as [j|] eqn:Hj; [|done].
    intros _. apply highest_Some in Hj as [(c & Hc & Hle) _].
    specialize (Hpc j c Hc). lia.
  - destruct (Tally.highest (preVotes fm2) _) as [j|] eqn:Hj; [|done].
    intros _. apply highest_Some in Hj as [(c & Hc & Hle) _].
    specialize (Hpv j c Hc). lia.
Qed.

(** ** The further theorems at concrete inputs *)

Lemma double_forging_rejected_witness :
  ∃ e, addBlockHeader (mkHeader 1 0 0 2 "A")
         (afterAdd manager_of_one header_1_by_A)
       = (afterAdd manager_of_one header_1_by_A, inl e)
       ∧ (e = InvalidHeaderSchema ∨ e = BFTInvalidAttributeError
          ∨ e = BFTForkChoiceRuleError).
Proof.
  apply (double_forging_rejected manager_of_one
           (afterAdd manager_of_one header_1_by_A) header_1_by_A
           (mkHeader 1 0 0 2 "A")).
  - simpl. lia.
  - simpl. lia.
  - vm_compute. reflexivity.
  - reflexivity.
  - reflexivity.
  - reflexivity.
Defined.

Lemma verified_header_acknowledges_previous_witness :
  height header_1_by_A ≤ maxHeightPreviouslyForged header_2_by_A
  ∧ maxHeightPreviouslyForged header_1_by_A
    ≤ maxHeightPreviouslyForged header_2_by_A
  ∧ maxHeightPrevoted header_1_by_A ≤ maxHeightPrevoted header_2_by_A.
Proof.
  apply (verified_header_acknowledges_previous
           (afterAdd manager_of_one header_1_by_A) header_2_by_A header_1_by_A).
  - vm_compute. reflexivity.
  - simpl. lia.
  - simpl. lia.
  - vm_compute. reflexivity.
Defined.

Lemma delegate_state_kept_witness :
  ∃ s', state (updatePreVotesPreCommits header_2_by_A
                 (afterAdd manager_of_one header_1_by_A)).1 !! "A" = Some s'
        ∧ 0 ≤ maxPreCommitHeight s'.
Proof.
  destruct (delegate_state_kept (afterAdd manager_of_one header_1_by_A)
              header_2_by_A "A"
              {| maxPreVoteHeight := 1; maxPreCommitHeight := 0 |})
    as (s' & Hs' & Hle & _).
  - vm_compute. reflexivity.
  - exists s'. split; [exact Hs'|exact Hle].
Defined.

Lemma removeBlockHeaders_all_witness :
  let fm := addAll manager_of_one [header_1_by_A; header_2_by_A] in
  HeadersList.items (headers (removeBlockHeaders 0 fm)) = []
  ∧ finalizedHeight (removeBlockHeaders 0 fm) = 1
  ∧ chainMaxHeightPrevoted (removeBlockHeaders 0 fm) = 0.
Proof.
  intros fm.
  assert (Forall (λ x, 0 < height x) (HeadersList.items (headers fm))) as Hall.
  { vm_compute. repeat constructor. }
  rewrite (removeBlockHeaders_all fm 0 Hall). split_and!; reflexivity.
Defined.

Lemma chainMaxHeightPrevoted_monotone_witness :
  chainMaxHeightPrevoted (addAll manager_of_one [header_1_by_A])
  ≤ chainMaxHeightPrevoted
      (afterAdd (addAll manager_of_one [header_1_by_A]) header_2_by_A).
Proof.
  exact (chainMaxHeightPrevoted_monotone 0 1 manager_of_one [header_1_by_A]
           header_2_by_A eq_refl).
Defined.

Lemma finalized_at_most_prevoted_witness :
  finalizedHeight (addAll manager_of_one [header_1_by_A; header_2_by_A])
  ≤ chainMaxHeightPrevoted
      (addAll manager_of_one [header_1_by_A; header_2_by_A]).
Proof.
  apply (finalized_at_most_prevoted 0 1 manager_of_one
           [header_1_by_A; header_2_by_A]).
  - reflexivity.
  - lia.
Defined.

Lemma no_vote_counted_twice_witness :
  let fm := afterAdd (afterAdd manager_of_one header_1_by_A) header_2_by_A in
  preVotes fm !! 1 = Some 1
  ∧ 1 ≤ Z.of_nat (base.size (preVoters 1 (state fm))).
Proof.
  intros fm.
  assert (reachable fm) as Hreach.
  { apply reachable_add.
    - apply reachable_add.
      + by apply (reachable_new 0 1).
      + exact I.
    - vm_compute. reflexivity. }
  assert (preVotes fm !! 1 = Some 1) as Hvote by (vm_compute; reflexivity).
  split; [exact Hvote|].
  exact (proj1 (no_vote_counted_twice fm 1 1 Hreach) Hvote).
Defined.

Lemma tallies_hold_at_most_maxHeaders_witness :
  let fm := afterAdd (afterAdd manager_of_one header_1_by_A) header_2_by_A in
  Z.of_nat (base.size (preVotes fm)) ≤ maxHeaders fm
  ∧ Z.of_nat (base.size (preCommits fm)) ≤ maxHeaders fm.
Proof.
  intros fm.
  assert (reachable fm) as Hreach.
  { apply reachable_add.
    - apply reachable_add.
      + by apply (reachable_new 0 1).
      + exact I.
    - vm_compute. reflexivity. }
  exact (tallies_hold_at_most_maxHeaders fm Hreach).
Defined.

Lemma tip_never_precommitted_witness :
  let fm := afterAdd (afterAdd manager_of_one header_1_by_A) header_2_by_A in
  preCommits fm !! 1 = Some 1 ∧ 1 < maxHeight fm.
Proof.
  intros fm.
  assert (reachable fm) as Hreach.
  { apply reachable_add.
    - apply reachable_add.
      + by apply (reachable_new 0 1).
      + exact I.
    - vm_compute. reflexivity. }
  assert (preCommits fm !! 1 = Some 1) as Hcommit by (vm_compute; reflexivity).
  split; [exact Hcommit|].
  apply (proj1 (tip_never_precommitted fm Hreach)).
  rewrite Hcommit. eauto.
Defined.

Lemma removeBlockHeaders_again_witness :
  let fm := addAll manager_of_one [header_1_by_A; header_2_by_A] in
  removeBlockHeaders 2 (removeBlockHeaders 1 fm) = removeBlockHeaders 1 fm.
Proof.
  intros fm. apply (removeBlockHeaders_again 2 1 fm). lia.
Defined.

Lemma moved_by_quorum_witness :
  let fm := afterAdd manager_of_one header_1_by_A in
  let fm' := afterAdd fm header_2_by_A in
  finalizedHeight fm' ≠ finalizedHeight fm
  ∧ preCommitThreshold fm'
    ≤ Z.of_nat (base.size (preCommitters (finalizedHeight fm') (state fm'))).
Proof.
  intros fm fm'.
  assert (reachable fm) as Hreach.
  { apply reachable_add; [by apply (reachable_new 0 1)|exact I]. }
  assert (HeadersList.appendable header_2_by_A (headers fm)) as Happ.
  { vm_compute. reflexivity. }
  assert (finalizedHeight fm' ≠ finalizedHeight fm) as Hmoved.
  { vm_compute. discriminate. }
  split; [exact Hmoved|].
  exact (proj1 (moved_by_quorum fm header_2_by_A Hreach Happ) Hmoved).
Defined.

Lemma restart_throws_witness :
  ∃ started stopped failed,
    P2P.start 1 (P2P.fresh ∅) = (started, inr ())
    ∧ P2P.stop started = (stopped, inr ())
    ∧ P2P.start 1 stopped = (failed, inl P2P.PopulatorAlreadyRunning)
    ∧ P2P._isActive failed = true
    ∧ P2P.populatorRunning failed = false.
Proof.
  apply (restart_throws 1 (P2P.fresh ∅)); reflexivity.
Defined.

Lemma getPeers_drops_last_witness :
  length (P2P.peers
            (P2P._handleGetPeersRequest P2PExamples.jsonByteSize
               {| P2P.minimumPeerDiscoveryThreshold := None;
                  P2P.peerDiscoveryResponseLength := None;
                  P2P.wsMaxPayload := Some 1000;
                  P2P.maxPeerInfoSize := Some 2000000 |}
               P2PExamples.thirtyPeers)) = 29%nat.
Proof.
  rewrite (getPeers_drops_last P2PExamples.jsonByteSize _
             P2PExamples.thirtyPeers 2000000).
  - vm_compute. reflexivity.
  - reflexivity.
  - vm_compute. reflexivity.
  - vm_compute. discriminate.
Defined.

Lemma isNetworkReady_once_witness :
  (P2PViews.isNetworkReadyCalls [0; 0; 2; 3; 0]%nat (P2P.fresh ∅)).2
  = [false; false; true; false; false].
Proof.
  rewrite (isNetworkReady_once [0; 0]%nat [3; 0]%nat 2 (P2P.fresh ∅)).
  - reflexivity.
  - reflexivity.
  - repeat constructor.
  - lia.
Defined.

Lemma ban_is_by_address_witness :
  let banned := (P2PViews._handleBanPeer "10.0.0.1:5000" (P2P.fresh ∅)).1 in
  let unbanned := (P2PViews._handleUnbanPeer "10.0.0.1:5001" banned).1 in
  P2PViews.ipAddressOf "10.0.0.1:5001" ∈ P2P._bannedPeers banned
  ∧ (P2PViews.ipAddressOf "10.0.0.1:5000" ∉ P2P._bannedPeers unbanned).
Proof.
  intros banned unbanned.
  destruct (ban_is_by_address "10.0.0.1:5000" "10.0.0.1:5001" (P2P.fresh ∅))
    as (Hbanned & Hunbanned & _).
  - reflexivity.
  - split; [exact Hbanned|exact Hunbanned].
Defined.

Lemma v0_block_casts_no_votes_witness :
  updatePreVotesPreCommits (mkHeader 5 5 0 1 "A") manager_of_one
  = (manager_of_one, false).
Proof.
  apply (v0_block_casts_no_votes
           {| BlockProcessorV0.height := 5;
              BlockProcessorV0.generatorPublicKey := "A";
              BlockProcessorV0.maxHeightPreviouslyForged := None;
              BlockProcessorV0.maxHeightPrevoted := None |}
           (mkHeader 5 5 0 1 "A") manager_of_one).
  - by left.
  - reflexivity.
  - reflexivity.
Defined.
